(** * docat web front end: [repositories/ProjectRepository.ts]

    A shallow embedding of the pure and the stateful functions of
    [ProjectRepository.ts] (version ordering, latest-version resolution,
    hidden-version filtering, free-text search and the favourite flags kept in
    [localStorage]), followed by the properties proved about them.

    Conventions of the embedding.
    - JavaScript strings are [string]; arrays are [list]; [undefined] and
      [null] results of look-ups are [None].
    - A JavaScript [number] that only ever holds a comparison result is a [Z].
    - The [semver] package and the locale-aware string built-ins are
      interfaces ([SemverLib], [JsBuiltins]); the source only calls them.
      Module [Model] gives one executable implementation of each, used to
      evaluate the functions on concrete inputs.
    - Mutation is explicit: [getLatestVersion] returns the final contents of
      the array it was handed, and [filterHiddenVersions] runs in a state
      monad over a heap of project objects. *)

From Stdlib Require Import ZArith List String Ascii Bool Lia Permutation Sorted.
From stdpp Require Import base option list gmap strings fin_maps.

Local Open Scope string_scope.
Local Open Scope Z_scope.

(** ** JavaScript built-ins with a fixed meaning *)

Module Js.

(** A completion of a call: a normal return or a thrown error. *)
Inductive Error : Type :=
| InvalidInput
| OtherError (message : string).

Inductive completion (A : Type) : Type :=
| Return (value : A)
| Throw (error : Error).

(** [String.prototype.includes]: [sub] occurs in [s] as a contiguous
    substring. *)
Fixpoint includes (s sub : string) : bool :=
  String.prefix sub s ||
  match s with
  | EmptyString => false
  | String _ s' => includes s' sub
  end.

(** [Array.prototype.includes] on an array of strings. *)
Definition array_includes (xs : list string) (x : string) : bool :=
  existsb (String.eqb x) xs.

(** [xs[i]] for a number [i]: [undefined] outside the array. *)
Definition index {A : Type} (xs : list A) (i : Z) : option A :=
  if i <? 0 then None else xs !! Z.to_nat i.

(** [xs.length] as a number. *)
Definition length {A : Type} (xs : list A) : Z := Z.of_nat (List.length xs).

End Js.

Arguments Js.Return {A} value.
Arguments Js.Throw {A} error.

(** ** Interfaces of the imported libraries *)

(** The two functions of the [semver] package that the module calls. *)
Class SemverLib : Type := {
  SemVer : Type;
  (** [semver.coerce]; [null] is [None]. *)
  semver_coerce : string -> option SemVer;
  (** [semver.compare]. *)
  semver_compare : SemVer -> SemVer -> Z
}.

(** Built-ins whose result depends on the engine, its locale data or the
    Unicode tables. *)
Class JsBuiltins : Type := {
  (** [a.localeCompare(b)]. *)
  localeCompare : string -> string -> Z;
  (** [s.toLowerCase()]. *)
  toLowerCase : string -> string;
  (** [s.trim()]. *)
  trim : string -> string;
  (** [xs.sort(cmp)]: the contents of the array after the in-place sort. *)
  array_sort : forall A : Type, (A -> A -> Z) -> list A -> list A
}.

Arguments array_sort {_ A} cmp xs.

(** The comparator orders the elements of [l] consistently: the signs of
    [cmp x y] and [cmp y x] are opposite and "not greater" is transitive. *)
Definition consistent {A : Type} (cmp : A -> A -> Z) (l : list A) : Prop :=
  (forall x y, In x l -> In y l -> (cmp x y < 0 <-> 0 < cmp y x)) /\
  (forall x y z, In x l -> In y l -> In z l ->
     cmp x y <= 0 -> cmp y z <= 0 -> cmp x z <= 0).

(** What ECMAScript promises of [Array.prototype.sort]: the array is
    permuted, and for a consistent comparator it ends up in ascending order.
    For other comparators the order is implementation-defined. *)
Definition sort_contract `{JsBuiltins} : Prop :=
  forall (A : Type) (cmp : A -> A -> Z) (l : list A),
    Permutation l (array_sort cmp l) /\
    (consistent cmp l ->
     StronglySorted (fun x y => cmp x y <= 0) (array_sort cmp l)).

(** ** Data model *)

(** Modelled from the spec: the interface [ProjectDetails] of
    [models/ProjectDetails], which is imported but not part of the sources at
    hand (the spec's VersionDescriptor: name, tags, hidden). *)
Record ProjectDetails : Type := {
  name : string;
  tags : list string;
  hidden : bool
}.

(** Modelled from the spec: the interface [Project] of
    [models/ProjectsResponse] (the spec's ProjectDescriptor: name, versions). *)
Record Project : Type := {
  project_name : string;
  versions : list ProjectDetails
}.

(** The parameter type of [compareVersions]:
    [{ name: string, tags?: string[] }]. *)
Record VersionArg : Type := {
  arg_name : string;
  arg_tags : option (list string)
}.

(** A [ProjectDetails] object passed where a [VersionArg] is expected. *)
Definition as_arg (v : ProjectDetails) : VersionArg :=
  {| arg_name := name v; arg_tags := Some (tags v) |}.

Coercion as_arg : ProjectDetails >-> VersionArg.

(** Modelled from the spec: the result interfaces of [models/SearchResult]. *)
Record ProjectSearchResult : Type := {
  psr_name : string
}.

Record VersionSearchResult : Type := {
  vsr_project : string;
  vsr_version : string
}.

Record SearchResult : Type := {
  sr_projects : list ProjectSearchResult;
  sr_versions : list VersionSearchResult
}.

(** ** compareVersions *)

Section Repository.
Context `{SemverLib} `{JsBuiltins}.

(** [(version.tags ?? []).includes('latest')] *)
Definition has_latest_tag (version : VersionArg) : bool :=
  Js.array_includes (default [] (arg_tags version)) "latest".

Definition compareVersions (versionA versionB : VersionArg) : Z :=
  if has_latest_tag versionA then 1
  else if has_latest_tag versionB then -1
  else
    let semverA := semver_coerce (arg_name versionA) in
    let semverB := semver_coerce (arg_name versionB) in
    match semverA, semverB with
    | Some sa, Some sb => semver_compare sa sb
    | _, _ => localeCompare (arg_name versionA) (arg_name versionB)
    end.

(** ** getLatestVersion *)

(** The first component is the completion of the call ([None] is
    [undefined]); the second is the contents, after the call, of the array
    object that was passed as [versions]. [Array.prototype.sort] sorts that
    very array and returns it, so [sortedVersions] and [versions] are one
    object. *)
Definition getLatestVersion (versions : list ProjectDetails)
  : Js.completion (option ProjectDetails) * list ProjectDetails :=
  match find (fun v => Js.includes (name v) "latest") versions with
  | Some latest => (Js.Return (Some latest), versions)
  | None =>
    match find (fun v => Js.array_includes (tags v) "latest") versions with
    | Some latestTag => (Js.Return (Some latestTag), versions)
    | None =>
      let sortedVersions :=
        array_sort (fun a b : ProjectDetails => compareVersions a b) versions in
      (Js.Return (Js.index sortedVersions (Js.length sortedVersions - 1)),
       sortedVersions)
    end
  end.

(** ** search *)

(** lodash's [some(collection, predicate)]. *)
Definition some {A : Type} (collection : list A) (predicate : A -> bool) : bool :=
  existsb predicate collection.

Definition search (projects : list Project) (searchQuery : string) : SearchResult :=
  let searchQueryLower := trim (toLowerCase searchQuery) in
  let projectResults :=
    map (fun project => {| psr_name := project_name project |})
      (List.filter
         (fun project =>
            Js.includes (toLowerCase (project_name project)) searchQueryLower &&
            some (versions project) (fun v => negb (hidden v)))
         projects) in
  let versionResults :=
    concat
      (map (fun project =>
              map (fun version =>
                     {| vsr_project := project_name project;
                        vsr_version := name version |})
                (List.filter
                   (fun version =>
                      Js.includes (toLowerCase (name version)) searchQueryLower &&
                      negb (hidden version))
                   (versions project)))
         projects) in
  let tagResults :=
    concat
      (map (fun project =>
              concat
                (map (fun version : list string =>
                        map (fun tag =>
                               {| vsr_project := project_name project;
                                  vsr_version := tag |})
                          version)
                   (map (fun version =>
                           List.filter
                             (fun tag =>
                                Js.includes (toLowerCase tag) searchQueryLower)
                             (tags version))
                      (List.filter (fun version => negb (hidden version))
                         (versions project)))))
         projects) in
  {| sr_projects := projectResults;
     sr_versions := versionResults ++ tagResults |}.

End Repository.

(** ** isFavorite, setFavorite *)

(** The [localStorage] object: a string-keyed store of strings. *)
Abbreviation Storage := (gmap string string).

(** [localStorage.getItem(key)]; [null] is [None]. *)
Definition getItem (localStorage : Storage) (key : string) : option string :=
  localStorage !! key.

Definition setItem (localStorage : Storage) (key value : string) : Storage :=
  <[key := value]> localStorage.

Definition removeItem (localStorage : Storage) (key : string) : Storage :=
  delete key localStorage.

Definition isFavorite (localStorage : Storage) (projectName : string) : bool :=
  bool_decide (getItem localStorage projectName = Some "favorite").

Definition setFavorite (localStorage : Storage) (projectName : string)
    (shouldBeFavorite : bool) : Storage :=
  if shouldBeFavorite then setItem localStorage projectName "favorite"
  else removeItem localStorage projectName.

(** ** filterHiddenVersions *)

(** Project objects live in a heap and are referred to by address; an array
    of projects is a list of addresses. Version objects are never written to
    by this module and are kept by value inside their project. *)
Abbreviation loc := positive.
Abbreviation heap := (gmap loc Project).

(** Computations over the heap. [None] is a read through an address that
    holds no object, which no JavaScript reference can be. *)
Definition M (A : Type) : Type := heap -> option (A * heap).

Definition ret {A : Type} (a : A) : M A := fun h => Some (a, h).

Definition bind {A B : Type} (m : M A) (k : A -> M B) : M B :=
  fun h => match m h with
           | Some (a, h') => k a h'
           | None => None
           end.

Notation "'let*' x ':=' m 'in' k" := (bind m (fun x => k))
  (at level 10, x binder, m at level 100, k at level 200).

(** Reading the object at an address. *)
Definition read (l : loc) : M Project :=
  fun h => match h !! l with
           | Some p => Some (p, h)
           | None => None
           end.

(** Assigning to the properties of the object at an address. *)
Definition write (l : loc) (p : Project) : M unit :=
  fun h => match h !! l with
           | Some _ => Some (tt, <[l := p]> h)
           | None => None
           end.

(** Creating an object at an address not in use. *)
Definition alloc (p : Project) : M loc :=
  fun h => let l := fresh (dom h) in Some (l, <[l := p]> h).

(** [xs.map(f)] with an effectful callback. *)
Fixpoint mapM {A B : Type} (f : A -> M B) (xs : list A) : M (list B) :=
  match xs with
  | [] => ret []
  | x :: xs' => let* y := f x in let* ys := mapM f xs' in ret (y :: ys)
  end.

(** [xs.forEach(f)]. *)
Fixpoint forEach {A : Type} (f : A -> M unit) (xs : list A) : M unit :=
  match xs with
  | [] => ret tt
  | x :: xs' => let* _ := f x in forEach f xs'
  end.

(** [xs.filter(f)] with a callback that reads the heap. *)
Fixpoint filterM {A : Type} (f : A -> M bool) (xs : list A) : M (list A) :=
  match xs with
  | [] => ret []
  | x :: xs' =>
    let* b := f x in
    let* ys := filterM f xs' in
    ret (if b : bool then x :: ys else ys)
  end.

(** [JSON.parse(JSON.stringify(allProjects))]: every project is written out
    and read back as a new object with the same property values. *)
Definition JSON_parse_stringify (allProjects : list loc) : M (list loc) :=
  mapM (fun l => let* p := read l in alloc p) allProjects.

Definition filterHiddenVersions (allProjects : list loc) : M (list loc) :=
  let* projects := JSON_parse_stringify allProjects in
  let* _ :=
    forEach
      (fun p =>
         let* obj := read p in
         write p {| project_name := project_name obj;
                    versions :=
                      List.filter (fun v => negb (hidden v)) (versions obj) |})
      projects in
  filterM (fun p => let* obj := read p in ret (0 <? Js.length (versions obj)))
    projects.

(** The array [ls] holds, in order, the addresses of objects whose contents
    in [h] are [ps]. *)
Definition holds (h : heap) (ls : list loc) (ps : list Project) : Prop :=
  Forall2 (fun l p => h !! l = Some p) ls ps.

(** ** An executable implementation of the library interfaces

    Used to run the functions on concrete inputs only; the general
    theorems are stated over the interfaces. The names in the examples are
    made of ASCII letters, digits, ["."] and ["-"]; the definitions follow
    the [semver] package (version 7) and, on letters and digits, the root
    collation that [localeCompare] uses by default. They make no claim on
    other input: characters outside ASCII are not lower-cased or trimmed,
    punctuation is ordered by character code, and the order a sort leaves
    for an inconsistent comparator is that of this insertion sort. *)

Module Model.

(** *** semver *)

Record Version : Type := {
  major : N;
  minor : N;
  patch : N
}.

Definition is_digit (c : ascii) : bool :=
  let n := N_of_ascii c in (48 <=? n)%N && (n <=? 57)%N.

(** The longest run of digits at the front of [s], and what follows it. *)
Fixpoint span_digits (s : string) : list N * string :=
  match s with
  | String c s' =>
    if is_digit c then
      let '(ds, rest) := span_digits s' in ((N_of_ascii c - 48)%N :: ds, rest)
    else ([], s)
  | EmptyString => ([], s)
  end.

Definition number (ds : list N) : N :=
  fold_left (fun acc d => (10 * acc + d)%N) ds 0%N.

Definition MAX_SAFE_INTEGER : N := 9007199254740991%N.

(** A numeric identifier of a strict version: no leading zero, at most
    [MAX_SAFE_INTEGER]. *)
Definition identifier (ds : list N) : option N :=
  match ds with
  | [] => None
  | 0%N :: _ :: _ => None
  | _ => if (number ds <=? MAX_SAFE_INTEGER)%N then Some (number ds) else None
  end.

(** The optional group [(?:\.(\d{1,16}))?] of the coercion pattern, which
    must be followed by a character that is not a digit. *)
Definition dot_group (s : string) : option (list N * string) :=
  match s with
  | String "."%char s' =>
    let '(ds, rest) := span_digits s' in
    if (1 <=? List.length ds)%nat && (List.length ds <=? 16)%nat
    then Some (ds, rest) else None
  | _ => None
  end.

(** The match that starts with the digit run [ds], followed by [rest]; the
    missing components default to 0 and the triple is parsed strictly. *)
Definition coerce_at (ds : list N) (rest : string) : option Version :=
  let groups :=
    match dot_group rest with
    | Some (mi, rest1) =>
      match dot_group rest1 with
      | Some (pa, _) => (mi, pa)
      | None => (mi, [0%N])
      end
    | None => ([0%N], [0%N])
    end in
  match identifier ds, identifier (fst groups), identifier (snd groups) with
  | Some ma, Some mi, Some pa => Some {| major := ma; minor := mi; patch := pa |}
  | _, _, _ => None
  end.

(** The leftmost match of
    [(^|[^\d])(\d{1,16})(?:\.(\d{1,16}))?(?:\.(\d{1,16}))?(?:$|[^\d])]:
    it starts at the first digit run of at most 16 digits. *)
Fixpoint scan (at_run_start : bool) (s : string) : option Version :=
  match s with
  | EmptyString => None
  | String c s' =>
    if is_digit c then
      if at_run_start then
        let '(ds, rest) := span_digits s in
        if (List.length ds <=? 16)%nat then coerce_at ds rest
        else scan false s'
      else scan false s'
    else scan true s'
  end.

Definition coerce (version : string) : option Version := scan true version.

Definition compareIdentifiers (a b : N) : Z :=
  match (a ?= b)%N with
  | Lt => -1
  | Eq => 0
  | Gt => 1
  end.

(** [a || b] on numbers. *)
Definition or_else (a b : Z) : Z := if a =? 0 then b else a.

Definition compare (a b : Version) : Z :=
  or_else (compareIdentifiers (major a) (major b))
    (or_else (compareIdentifiers (minor a) (minor b))
       (compareIdentifiers (patch a) (patch b))).

(** *** Strings *)

Definition is_upper (c : ascii) : bool :=
  let n := N_of_ascii c in (65 <=? n)%N && (n <=? 90)%N.

Definition is_lower (c : ascii) : bool :=
  let n := N_of_ascii c in (97 <=? n)%N && (n <=? 122)%N.

Definition lower_char (c : ascii) : ascii :=
  if is_upper c then ascii_of_N (N_of_ascii c + 32) else c.

Fixpoint to_lower (s : string) : string :=
  match s with
  | EmptyString => EmptyString
  | String c s' => String (lower_char c) (to_lower s')
  end.

Definition is_space (c : ascii) : bool :=
  let n := N_of_ascii c in ((9 <=? n)%N && (n <=? 13)%N) || (n =? 32)%N.

Fixpoint trim_start (s : string) : string :=
  match s with
  | String c s' => if is_space c then trim_start s' else s
  | EmptyString => EmptyString
  end.

Fixpoint trim_end (s : string) : string :=
  match s with
  | String c s' =>
    match trim_end s' with
    | EmptyString => if is_space c then EmptyString else String c EmptyString
    | t => String c t
    end
  | EmptyString => EmptyString
  end.

Definition trim_spaces (s : string) : string := trim_end (trim_start s).

(** The primary weight of a character: punctuation before digits before
    letters, the letters in alphabetical order whatever their case. *)
Definition primary (c : ascii) : N :=
  if is_digit c then (500 + (N_of_ascii c - 48))%N
  else if is_upper c then (1000 + (N_of_ascii c - 65))%N
  else if is_lower c then (1000 + (N_of_ascii c - 97))%N
  else N_of_ascii c.

(** The case weight of a character: lower case before upper case. *)
Definition tertiary (c : ascii) : N := if is_upper c then 1%N else 0%N.

(** Comparing two strings by the weights of their characters, first
    difference first; a proper prefix comes first. *)
Fixpoint compare_keys (key : ascii -> N) (s t : string) : comparison :=
  match s, t with
  | EmptyString, EmptyString => Eq
  | EmptyString, String _ _ => Lt
  | String _ _, EmptyString => Gt
  | String a s', String b t' =>
    match (key a ?= key b)%N with
    | Eq => compare_keys key s' t'
    | c => c
    end
  end.

Definition number_of (c : comparison) : Z :=
  match c with
  | Lt => -1
  | Eq => 0
  | Gt => 1
  end.

Definition collate (s t : string) : Z :=
  number_of
    match compare_keys primary s t with
    | Eq => compare_keys tertiary s t
    | c => c
    end.

(** *** Sorting *)

Fixpoint insert {A : Type} (cmp : A -> A -> Z) (x : A) (l : list A) : list A :=
  match l with
  | [] => [x]
  | y :: l' => if cmp x y <? 0 then x :: l else y :: insert cmp x l'
  end.

(** A stable insertion sort. *)
Definition insertion_sort {A : Type} (cmp : A -> A -> Z) (l : list A) : list A :=
  fold_left (fun acc x => insert cmp x acc) l [].

Definition semver : SemverLib :=
  {| SemVer := Version; semver_coerce := coerce; semver_compare := compare |}.

Definition builtins : JsBuiltins :=
  {| localeCompare := collate;
     toLowerCase := to_lower;
     trim := trim_spaces;
     array_sort := @insertion_sort |}.

End Model.


(** ** Notions of the specification *)

(** The version carries the tag ["latest"]. *)
Definition tagged_latest (v : VersionArg) : Prop :=
  exists ts, arg_tags v = Some ts /\ In "latest" ts.

(** Case-sensitive lexical comparison of two strings, character code by
    character code. *)
Definition lexical_compare (s t : string) : Z :=
  Model.number_of (String.compare s t).

Section SearchSpec.
Context `{JsBuiltins}.

(** Case-insensitive containment of an already normalised query. *)
Definition contains_query (text query : string) : bool :=
  Js.includes (toLowerCase text) query.

Definition visible (v : ProjectDetails) : bool := negb (hidden v).

(** Version-name matches of one project, version by version. *)
Fixpoint name_matches_of (project : string) (vs : list ProjectDetails)
    (query : string) : list VersionSearchResult :=
  match vs with
  | [] => []
  | v :: vs' =>
    if visible v && contains_query (name v) query
    then {| vsr_project := project; vsr_version := name v |}
           :: name_matches_of project vs' query
    else name_matches_of project vs' query
  end.

(** Version-name matches of all projects, project by project. *)
Fixpoint name_matches (ps : list Project) (query : string)
  : list VersionSearchResult :=
  match ps with
  | [] => []
  | p :: ps' =>
    name_matches_of (project_name p) (versions p) query ++ name_matches ps' query
  end.

(** One entry per matching tag of one version; the tag is the entry's
    version field. *)
Fixpoint tag_entries (project : string) (ts : list string) (query : string)
  : list VersionSearchResult :=
  match ts with
  | [] => []
  | t :: ts' =>
    if contains_query t query
    then {| vsr_project := project; vsr_version := t |}
           :: tag_entries project ts' query
    else tag_entries project ts' query
  end.

(** Tag matches of one project: the visible versions in order, each with its
    matching tags in order. *)
Fixpoint tag_matches_of (project : string) (vs : list ProjectDetails)
    (query : string) : list VersionSearchResult :=
  match vs with
  | [] => []
  | v :: vs' =>
    if visible v
    then tag_entries project (tags v) query ++ tag_matches_of project vs' query
    else tag_matches_of project vs' query
  end.

Fixpoint tag_matches (ps : list Project) (query : string)
  : list VersionSearchResult :=
  match ps with
  | [] => []
  | p :: ps' =>
    tag_matches_of (project_name p) (versions p) query ++ tag_matches ps' query
  end.

(** A project with its hidden versions taken out. *)
Definition without_hidden (p : Project) : Project :=
  {| project_name := project_name p;
     versions := List.filter visible (versions p) |}.

(** Every visible version of every project, as a search entry. *)
Definition all_visible_versions (ps : list Project) : list VersionSearchResult :=
  flat_map
    (fun p =>
       map (fun v => {| vsr_project := project_name p; vsr_version := name v |})
         (List.filter visible (versions p)))
    ps.

(** One entry for every tag of every visible version of every project. *)
Definition all_visible_tags (ps : list Project) : list VersionSearchResult :=
  flat_map
    (fun p =>
       flat_map
         (fun v =>
            map (fun t => {| vsr_project := project_name p; vsr_version := t |})
              (tags v))
         (List.filter visible (versions p)))
    ps.

End SearchSpec.

(** The project has at least one version. *)
Definition has_versions (p : Project) : bool :=
  match versions p with
  | [] => false
  | _ :: _ => true
  end.

(** Splitting a membership hypothesis of an explicit list into its cases. *)
Ltac in_cases :=
  simpl In in *;
  repeat match goal with
         | H : _ \/ _ |- _ => destruct H as [<- | H]
         | H : False |- _ => destruct H
         end.

(** ** URLs *)

Definition RESOURCE : string := "doc".

Definition getProjectLogoURL (projectName : string) : string :=
  "/" ++ RESOURCE ++ "/" ++ projectName ++ "/logo".

(** [docsPath] is optional: [None] is an argument left out. *)
Definition getProjectDocsURL (projectName version : string)
    (docsPath : option string) : string :=
  "/" ++ RESOURCE ++ "/" ++ projectName ++ "/" ++ version ++ "/"
    ++ default "" docsPath.

(** The name has no ["/"] in it. *)
Fixpoint no_slash (s : string) : Prop :=
  match s with
  | EmptyString => True
  | String c s' => c <> "/"%char /\ no_slash s'
  end.

(** ** Requests to the server *)

Module Http.

Inductive Method : Type := GET | POST | DELETE.

(** A call of [fetch]: the URL and, of the options, the method, the headers
    and the body. *)
Record Request (Body : Type) : Type := {
  url : string;
  method : Method;
  headers : list (string * string);
  body : option Body
}.

(** What the module reads of a response. [Success]: [ok] is true; [json]
    is what awaiting [json()] gives, the parsed body at the type the code
    casts it to, or the error the promise is rejected with (a body that is
    not JSON). [Failure]: [ok] is false, with the status and, for [json],
    the [message] of the parsed body or the error of the rejection. *)
Inductive Response (A : Type) : Type :=
| Success (json : Js.completion A)
| Failure (status : Z) (json : Js.completion string).

End Http.

Arguments Http.url {Body} _.
Arguments Http.method {Body} _.
Arguments Http.headers {Body} _.
Arguments Http.body {Body} _.
Arguments Http.Success {A} json.
Arguments Http.Failure {A} status json.

Section Server.
(** The type of the form data handed to [upload]. *)
Context {FormData : Type}.

(** [fetch(url)] with no options is a GET without headers or body. *)
Definition get (url : string) : Http.Request FormData :=
  {| Http.url := url; Http.method := Http.GET; Http.headers := [];
     Http.body := None |}.

(** In the four functions below [fetch] gives what awaiting [fetch(...)]
    gives: a response, or the error the promise is rejected with, which the
    [await] raises again. *)

(** The first component is the completion of the call, the second the lines
    written with [console.error]. *)
Definition getVersions
    (fetch : Http.Request FormData ->
             Js.completion (Http.Response (list ProjectDetails)))
    (projectName : string)
  : Js.completion (list ProjectDetails) * list string :=
  match fetch (get ("/api/projects/" ++ projectName ++ "?include_hidden=true")) with
  | Js.Throw e => (Js.Throw e, [])
  | Js.Return (Http.Failure _ json) =>
    match json with
    | Js.Throw e => (Js.Throw e, [])
    | Js.Return message => (Js.Return [], [message])
    end
  | Js.Return (Http.Success json) =>
    match json with
    | Js.Throw e => (Js.Throw e, [])
    | Js.Return versions => (Js.Return versions, [])
    end
  end.

(** [new Error(message)] is [Js.OtherError message]. *)
Definition upload
    (fetch : Http.Request FormData -> Js.completion (Http.Response unit))
    (projectName version : string) (body : FormData) : Js.completion unit :=
  match fetch {| Http.url := "/api/" ++ projectName ++ "/" ++ version;
                 Http.method := Http.POST;
                 Http.headers := [];
                 Http.body := Some body |} with
  | Js.Throw e => Js.Throw e
  | Js.Return (Http.Success _) => Js.Return tt
  | Js.Return (Http.Failure status json) =>
    if status =? 401 then
      Js.Throw (Js.OtherError
                  "Failed to upload documentation: Version already exists")
    else if status =? 504 then
      Js.Throw (Js.OtherError
                  "Failed to upload documentation: Server unreachable")
    else
      match json with
      | Js.Throw e => Js.Throw e
      | Js.Return message =>
        Js.Throw (Js.OtherError ("Failed to upload documentation: " ++ message))
      end
  end.

(** The body of the answer to a claim: [{ token: string }]. *)
Record Claim : Type := {
  token : string
}.

Definition claim
    (fetch : Http.Request FormData -> Js.completion (Http.Response Claim))
    (projectName : string) : Js.completion Claim :=
  match fetch (get ("/api/" ++ projectName ++ "/claim")) with
  | Js.Throw e => Js.Throw e
  | Js.Return (Http.Success json) => json
  | Js.Return (Http.Failure status json) =>
    if status =? 504 then
      Js.Throw (Js.OtherError "Failed to claim project: Server unreachable")
    else
      match json with
      | Js.Throw e => Js.Throw e
      | Js.Return message =>
        Js.Throw (Js.OtherError ("Failed to claim project: " ++ message))
      end
  end.

Definition deleteDoc
    (fetch : Http.Request FormData -> Js.completion (Http.Response unit))
    (projectName version token : string) : Js.completion unit :=
  let headers := [("Docat-Api-Key", token)] in
  match fetch {| Http.url := "/api/" ++ projectName ++ "/" ++ version;
                 Http.method := Http.DELETE;
                 Http.headers := headers;
                 Http.body := None |} with
  | Js.Throw e => Js.Throw e
  | Js.Return (Http.Success _) => Js.Return tt
  | Js.Return (Http.Failure status json) =>
    if status =? 401 then
      Js.Throw (Js.OtherError "Failed to delete documentation: Invalid token")
    else if status =? 504 then
      Js.Throw (Js.OtherError
                  "Failed to delete documentation: Server unreachable")
    else
      match json with
      | Js.Throw e => Js.Throw e
      | Js.Return message =>
        Js.Throw (Js.OtherError ("Failed to delete documentation: " ++ message))
      end
  end.

End Server.

(** The error was made by [new Error(message)] with a message that starts
    with [prefix]. *)
Definition has_prefix (e : Js.Error) (prefix : string) : Prop :=
  exists message,
    e = Js.OtherError message /\ String.prefix prefix message = true.

(** ** Properties of the built-ins *)

Lemma includes_empty (s : string) : Js.includes s "" = true.
Proof. destruct s; reflexivity. Qed.

Lemma array_includes_In (xs : list string) (x : string) :
  Js.array_includes xs x = true <-> In x xs.
Proof.
  unfold Js.array_includes. rewrite existsb_exists. split.
  - intros (y & Hy & Heq). apply String.eqb_eq in Heq. now subst.
  - intros Hx. exists x. split; [assumption | apply String.eqb_refl].
Qed.

Lemma find_first {A : Type} (f : A -> bool) (pre : list A) (v : A) (post : list A) :
  Forall (fun u => f u = false) pre -> f v = true ->
  find f (pre ++ v :: post) = Some v.
Proof.
  induction 1 as [| u pre Hu _ IH]; intros Hv; simpl.
  - now rewrite Hv.
  - rewrite Hu. now apply IH.
Qed.

Lemma find_nothing {A : Type} (f : A -> bool) (l : list A) :
  Forall (fun u => f u = false) l -> find f l = None.
Proof.
  induction 1 as [| u l Hu _ IH]; simpl; [reflexivity | now rewrite Hu].
Qed.

(** ** Properties of the model of the libraries *)

Lemma number_of_opp (c : comparison) :
  Model.number_of (CompOpp c) = - Model.number_of c.
Proof. now destruct c. Qed.

Lemma compare_keys_antisym (key : ascii -> N) (s t : string) :
  Model.compare_keys key t s = CompOpp (Model.compare_keys key s t).
Proof.
  revert t. induction s as [| a s IH]; intros [| b t]; simpl; try reflexivity.
  rewrite (N.compare_antisym (key a) (key b)).
  destruct (key a ?= key b)%N; simpl; auto.
Qed.

Lemma collate_antisym (s t : string) :
  Model.collate s t = - Model.collate t s.
Proof.
  unfold Model.collate.
  rewrite (compare_keys_antisym Model.primary t s).
  rewrite (compare_keys_antisym Model.tertiary t s).
  destruct (Model.compare_keys Model.primary t s); simpl;
    [apply number_of_opp | reflexivity | reflexivity].
Qed.

Lemma compareIdentifiers_antisym (a b : N) :
  Model.compareIdentifiers a b = - Model.compareIdentifiers b a.
Proof.
  unfold Model.compareIdentifiers. rewrite (N.compare_antisym b a).
  now destruct (b ?= a)%N.
Qed.

Lemma model_compare_antisym (x y : Model.Version) :
  Model.compare x y = - Model.compare y x.
Proof.
  unfold Model.compare, Model.or_else.
  rewrite (compareIdentifiers_antisym (Model.major x)),
          (compareIdentifiers_antisym (Model.minor x)),
          (compareIdentifiers_antisym (Model.patch x)).
  repeat match goal with
         | |- context [Z.eqb ?a 0] => destruct (Z.eqb_spec a 0)
         end; lia.
Qed.

(** ** compareVersions *)

Lemma has_latest_tag_iff (v : VersionArg) :
  has_latest_tag v = true <-> tagged_latest v.
Proof.
  unfold has_latest_tag, tagged_latest. rewrite array_includes_In.
  destruct (arg_tags v) as [ts |]; simpl.
  - split; [intros Hin; now exists ts | intros (ts' & [= <-] & Hin); exact Hin].
  - split; [intros [] | intros (ts' & [=] & _)].
Qed.

Lemma has_latest_tag_false (v : VersionArg) :
  ~ tagged_latest v -> has_latest_tag v = false.
Proof.
  intros Hv. destruct (has_latest_tag v) eqn:E; [| reflexivity].
  now apply has_latest_tag_iff in E.
Qed.

(** When both arguments carry the tag, the first one wins whichever way
    round they are passed. *)
Lemma compareVersions_both_latest `{SemverLib} `{JsBuiltins} (a b : VersionArg) :
  tagged_latest a -> tagged_latest b ->
  compareVersions a b = 1 /\ compareVersions b a = 1.
Proof.
  intros Ha%has_latest_tag_iff Hb%has_latest_tag_iff.
  unfold compareVersions. now rewrite Ha, Hb.
Qed.

(** C2: for two version descriptors that do not both carry the tag
    ["latest"], [compareVersions a b] is the opposite of
    [compareVersions b a], the comparisons of the [semver] package and of
    [localeCompare] being antisymmetric themselves. *)
Theorem compareVersions_antisymmetric `{SemverLib} `{JsBuiltins}
    (Hsemver : forall x y, semver_compare x y = - semver_compare y x)
    (Hlocale : forall s t, localeCompare s t = - localeCompare t s)
    (a b : VersionArg) :
  ~ (tagged_latest a /\ tagged_latest b) ->
  compareVersions a b = - compareVersions b a.
Proof.
  intros Hnot. unfold compareVersions.
  destruct (has_latest_tag a) eqn:Ea, (has_latest_tag b) eqn:Eb;
    try reflexivity.
  - exfalso. apply Hnot. split; now apply has_latest_tag_iff.
  - destruct (semver_coerce (arg_name a)), (semver_coerce (arg_name b));
      simpl; auto.
Qed.

Lemma compareVersions_antisymmetric_witness :
  @compareVersions Model.semver Model.builtins
    {| arg_name := "2.0.0"; arg_tags := Some ["latest"] |}
    {| arg_name := "dev"; arg_tags := None |}
  = - @compareVersions Model.semver Model.builtins
        {| arg_name := "dev"; arg_tags := None |}
        {| arg_name := "2.0.0"; arg_tags := Some ["latest"] |}.
Proof.
  apply (@compareVersions_antisymmetric Model.semver Model.builtins
           model_compare_antisym collate_antisym).
  intros [_ (ts & Hts & _)]. discriminate Hts.
Defined.

(** C4, as amended: when neither descriptor carries the tag ["latest"] and
    one of the two names cannot be coerced to a semantic version,
    [compareVersions a b] is [a.name.localeCompare(b.name)], the
    locale-aware collation of the raw names. *)
Theorem compareVersions_fallback `{SemverLib} `{JsBuiltins} (a b : VersionArg) :
  ~ tagged_latest a -> ~ tagged_latest b ->
  semver_coerce (arg_name a) = None \/ semver_coerce (arg_name b) = None ->
  compareVersions a b = localeCompare (arg_name a) (arg_name b).
Proof.
  intros Ha%has_latest_tag_false Hb%has_latest_tag_false Hnone.
  unfold compareVersions. rewrite Ha, Hb.
  destruct Hnone as [-> | ->]; [reflexivity |].
  now destruct (semver_coerce (arg_name a)).
Qed.

Lemma compareVersions_fallback_witness :
  @compareVersions Model.semver Model.builtins
    {| arg_name := "dev"; arg_tags := Some ["nightly"] |}
    {| arg_name := "1.2.3"; arg_tags := None |}
  = Model.collate "dev" "1.2.3".
Proof.
  apply (@compareVersions_fallback Model.semver Model.builtins).
  - intros (ts & [= <-] & Hin). simpl in Hin. intuition discriminate.
  - intros (ts & [=] & _).
  - left. reflexivity.
Defined.

(** C4, as stated, fails: neither ["a"] nor ["B"] coerces, the collation
    puts ["a"] before ["B"], and by character code ["a"] comes after ["B"]. *)
Lemma compareVersions_not_lexical :
  let a := {| arg_name := "a"; arg_tags := None |} in
  let b := {| arg_name := "B"; arg_tags := None |} in
  has_latest_tag a = false /\ has_latest_tag b = false /\
  @semver_coerce Model.semver (arg_name a) = None /\
  @compareVersions Model.semver Model.builtins a b = -1 /\
  lexical_compare (arg_name a) (arg_name b) = 1.
Proof. repeat split. Qed.

(** ** isFavorite, setFavorite *)

(** C9: [isFavorite] is false for a project with no entry or with an entry
    other than ["favorite"]; [setFavorite p true] stores ["favorite"] under
    [p]; [setFavorite p false] removes the key [p]; after the one and then
    the other the store has no key [p] and [isFavorite p] is false. *)
Theorem favorite_store (localStorage : Storage) (p : string) :
  (getItem localStorage p = None -> isFavorite localStorage p = false) /\
  (forall v, getItem localStorage p = Some v -> v <> "favorite" ->
             isFavorite localStorage p = false) /\
  getItem (setFavorite localStorage p true) p = Some "favorite" /\
  getItem (setFavorite localStorage p false) p = None /\
  (p ∉ dom (setFavorite localStorage p false)) /\
  (p ∉ dom (setFavorite (setFavorite localStorage p true) p false)) /\
  isFavorite (setFavorite (setFavorite localStorage p true) p false) p = false.
Proof.
  unfold isFavorite, setFavorite, getItem, setItem, removeItem.
  repeat split.
  - intros ->. reflexivity.
  - intros v -> Hv. apply bool_decide_eq_false. congruence.
  - apply lookup_insert_eq.
  - apply lookup_delete_eq.
  - apply not_elem_of_dom, lookup_delete_eq.
  - apply not_elem_of_dom, lookup_delete_eq.
  - apply bool_decide_eq_false. rewrite lookup_delete_eq. discriminate.
Qed.

(** ** search *)

Section SearchProperties.
Context `{JsBuiltins}.

Lemma versionResults_of_project (project : string) (vs : list ProjectDetails)
    (query : string) :
  map (fun version => {| vsr_project := project; vsr_version := name version |})
    (List.filter
       (fun version =>
          Js.includes (toLowerCase (name version)) query && negb (hidden version))
       vs)
  = name_matches_of project vs query.
Proof.
  induction vs as [| v vs IH]; simpl; [reflexivity |].
  unfold visible, contains_query.
  destruct (hidden v), (Js.includes (toLowerCase (name v)) query); simpl;
    congruence.
Qed.

Lemma tagResults_of_version (project : string) (ts : list string)
    (query : string) :
  map (fun tag => {| vsr_project := project; vsr_version := tag |})
    (List.filter (fun tag => Js.includes (toLowerCase tag) query) ts)
  = tag_entries project ts query.
Proof.
  induction ts as [| t ts IH]; simpl; [reflexivity |].
  unfold contains_query.
  destruct (Js.includes (toLowerCase t) query); simpl; congruence.
Qed.

Lemma tagResults_of_project (project : string) (vs : list ProjectDetails)
    (query : string) :
  concat
    (map (fun version : list string =>
            map (fun tag => {| vsr_project := project; vsr_version := tag |})
              version)
       (map (fun version =>
               List.filter (fun tag => Js.includes (toLowerCase tag) query)
                 (tags version))
          (List.filter (fun version => negb (hidden version)) vs)))
  = tag_matches_of project vs query.
Proof.
  induction vs as [| v vs IH]; simpl; [reflexivity |].
  unfold visible. destruct (hidden v); simpl; [exact IH |].
  now rewrite tagResults_of_version, IH.
Qed.

Lemma versions_field_eq (ps : list Project) (query : string) :
  sr_versions (search ps query)
  = (name_matches ps (trim (toLowerCase query))
       ++ tag_matches ps (trim (toLowerCase query)))%list.
Proof.
  unfold search; simpl. f_equal.
  - induction ps as [| p ps IH]; simpl; [reflexivity |].
    now rewrite versionResults_of_project, IH.
  - induction ps as [| p ps IH]; simpl; [reflexivity |].
    now rewrite tagResults_of_project, IH.
Qed.

Lemma name_matches_of_visible (project : string) (vs : list ProjectDetails)
    (query : string) :
  name_matches_of project (List.filter visible vs) query
  = name_matches_of project vs query.
Proof.
  induction vs as [| v vs IH]; simpl; [reflexivity |].
  destruct (visible v) eqn:E; simpl; [rewrite E, IH | exact IH]; reflexivity.
Qed.

Lemma tag_matches_of_visible (project : string) (vs : list ProjectDetails)
    (query : string) :
  tag_matches_of project (List.filter visible vs) query
  = tag_matches_of project vs query.
Proof.
  induction vs as [| v vs IH]; simpl; [reflexivity |].
  destruct (visible v) eqn:E; simpl; [rewrite E, IH | exact IH]; reflexivity.
Qed.

Lemma matches_without_hidden (ps : list Project) (query : string) :
  name_matches (map without_hidden ps) query = name_matches ps query /\
  tag_matches (map without_hidden ps) query = tag_matches ps query.
Proof.
  induction ps as [| p ps [IHn IHt]]; simpl; [split; reflexivity |].
  now rewrite name_matches_of_visible, tag_matches_of_visible, IHn, IHt.
Qed.

(** What the two groups contain. *)
Lemma name_matches_of_In (project : string) (vs : list ProjectDetails)
    (query : string) (r : VersionSearchResult) :
  In r (name_matches_of project vs query) <->
  exists v, In v vs /\ hidden v = false /\
            contains_query (name v) query = true /\
            r = {| vsr_project := project; vsr_version := name v |}.
Proof.
  induction vs as [| v vs IH]; simpl.
  - split; [intros [] | intros (v & [] & _)].
  - unfold visible at 1.
    destruct (hidden v) eqn:Eh, (contains_query (name v) query) eqn:Ec; simpl;
      rewrite IH; split.
    all: try (intros (u & Hu & Hr); exists u; split; [now right | exact Hr]).
    all: try (intros (u & [<- | Hu] & Hh & Hc & Hr);
              [congruence | exists u; auto]).
    + intros [<- | (u & Hu & Hr)];
        [exists v; auto | exists u; split; [now right | exact Hr]].
    + intros (u & [<- | Hu] & Hh & Hc & Hr); [now left | right; exists u; auto].
Qed.

Lemma tag_entries_In (project : string) (ts : list string) (query : string)
    (r : VersionSearchResult) :
  In r (tag_entries project ts query) <->
  exists t, In t ts /\ contains_query t query = true /\
            r = {| vsr_project := project; vsr_version := t |}.
Proof.
  induction ts as [| t ts IH]; simpl.
  - split; [intros [] | intros (t & [] & _)].
  - destruct (contains_query t query) eqn:Ec; simpl; rewrite IH; split.
    + intros [<- | (u & Hu & Hr)];
        [exists t; auto | exists u; split; [now right | exact Hr]].
    + intros (u & [<- | Hu] & Hc & Hr); [now left | right; exists u; auto].
    + intros (u & Hu & Hr); exists u; split; [now right | exact Hr].
    + intros (u & [<- | Hu] & Hc & Hr); [congruence | exists u; auto].
Qed.

(** C7: the [versions] field of the result is the version-name matches (the
    visible versions whose lower-cased name contains the lower-cased, trimmed
    query, as project/version entries) followed by the tag matches (one entry
    per matching tag of a visible version, the tag being the entry's version
    field), both in the order of the projects and of their versions; hidden
    versions add nothing to either group. *)
Theorem search_versions (ps : list Project) (query : string) :
  sr_versions (search ps query)
  = (name_matches ps (trim (toLowerCase query))
       ++ tag_matches ps (trim (toLowerCase query)))%list /\
  sr_versions (search (map without_hidden ps) query)
  = sr_versions (search ps query).
Proof.
  split; [apply versions_field_eq |].
  rewrite !versions_field_eq.
  destruct (matches_without_hidden ps (trim (toLowerCase query))) as [-> ->].
  reflexivity.
Qed.

End SearchProperties.

Section ProjectResults.
Context `{JsBuiltins}.

(** The project matches, in the order of the projects. *)
Lemma projects_field_eq (ps : list Project) (query : string) :
  sr_projects (search ps query)
  = map (fun p => {| psr_name := project_name p |})
      (List.filter
         (fun p =>
            contains_query (project_name p) (trim (toLowerCase query)) &&
            existsb visible (versions p))
         ps).
Proof. reflexivity. Qed.

Lemma all_hidden_not_visible (vs : list ProjectDetails) :
  (forall v, In v vs -> hidden v = true) -> existsb visible vs = false.
Proof.
  intros Hall. destruct (existsb visible vs) eqn:E; [| reflexivity].
  apply existsb_exists in E as (v & Hv & Hvis).
  unfold visible in Hvis. now rewrite (Hall v Hv) in Hvis.
Qed.

(** C8: an entry is in the [projects] field exactly when it is the name of a
    project whose lower-cased name contains the lower-cased, trimmed query
    and which has a version that is not hidden; a project whose versions are
    all hidden adds nothing to the field, whatever the query. *)
Theorem search_projects (ps : list Project) (query : string) :
  (forall r,
     In r (sr_projects (search ps query)) <->
     exists p, In p ps /\ r = {| psr_name := project_name p |} /\
               Js.includes (toLowerCase (project_name p))
                 (trim (toLowerCase query)) = true /\
               exists v, In v (versions p) /\ hidden v = false) /\
  (forall pre p post,
     ps = (pre ++ p :: post)%list ->
     (forall v, In v (versions p) -> hidden v = true) ->
     sr_projects (search ps query) = sr_projects (search (pre ++ post) query)).
Proof.
  split.
  - intros r. rewrite projects_field_eq, in_map_iff. split.
    + intros (p & <- & Hp). apply filter_In in Hp as [Hp Hc].
      apply andb_true_iff in Hc as [Hc Hv].
      apply existsb_exists in Hv as (v & Hv & Hvis).
      exists p. repeat split; try assumption.
      exists v. split; [assumption |].
      unfold visible in Hvis. now destruct (hidden v).
    + intros (p & Hp & -> & Hc & v & Hv & Hh).
      exists p. split; [reflexivity |]. apply filter_In. split; [assumption |].
      apply andb_true_iff. split; [exact Hc |].
      apply existsb_exists. exists v. split; [assumption |].
      unfold visible. now rewrite Hh.
  - intros pre p post -> Hall. rewrite !projects_field_eq.
    rewrite !List.filter_app, !map_app. simpl.
    now rewrite (all_hidden_not_visible _ Hall), andb_false_r.
Qed.

Lemma name_matches_of_empty_query (project : string) (vs : list ProjectDetails) :
  name_matches_of project vs ""
  = map (fun v => {| vsr_project := project; vsr_version := name v |})
      (List.filter visible vs).
Proof.
  induction vs as [| v vs IH]; simpl; [reflexivity |].
  unfold contains_query. rewrite includes_empty, andb_true_r.
  destruct (visible v); simpl; congruence.
Qed.

Lemma tag_entries_empty_query (project : string) (ts : list string) :
  tag_entries project ts ""
  = map (fun t => {| vsr_project := project; vsr_version := t |}) ts.
Proof.
  induction ts as [| t ts IH]; simpl; [reflexivity |].
  unfold contains_query. rewrite includes_empty. simpl. congruence.
Qed.

Lemma tag_matches_of_empty_query (project : string) (vs : list ProjectDetails) :
  tag_matches_of project vs ""
  = flat_map
      (fun v =>
         map (fun t => {| vsr_project := project; vsr_version := t |}) (tags v))
      (List.filter visible vs).
Proof.
  induction vs as [| v vs IH]; simpl; [reflexivity |].
  destruct (visible v); simpl; [| exact IH].
  now rewrite tag_entries_empty_query, IH.
Qed.

(** C10: for a query that is empty once lower-cased and trimmed, the
    [projects] field holds every project that has a visible version, and the
    [versions] field holds every visible version of every project followed by
    one entry per tag of every visible version. *)
Theorem search_empty_query (ps : list Project) (query : string) :
  trim (toLowerCase query) = "" ->
  sr_projects (search ps query)
  = map (fun p => {| psr_name := project_name p |})
      (List.filter (fun p => existsb visible (versions p)) ps) /\
  sr_versions (search ps query)
  = (all_visible_versions ps ++ all_visible_tags ps)%list.
Proof.
  intros Hq. split.
  - rewrite projects_field_eq, Hq. f_equal.
    apply List.filter_ext. intros p. unfold contains_query.
    now rewrite includes_empty.
  - rewrite versions_field_eq, Hq. f_equal.
    + induction ps as [| p ps IH]; simpl; [reflexivity |].
      now rewrite name_matches_of_empty_query, IH.
    + induction ps as [| p ps IH]; simpl; [reflexivity |].
      now rewrite tag_matches_of_empty_query, IH.
Qed.

End ProjectResults.

Lemma search_empty_query_witness :
  let ps :=
    [ {| project_name := "Alpha";
         versions := [ {| name := "1.0.0"; tags := ["stable"; "lts"]; hidden := false |};
                       {| name := "0.9.0"; tags := ["old"]; hidden := true |} ] |};
      {| project_name := "beta";
         versions := [ {| name := "2.0.0"; tags := []; hidden := true |} ] |} ] in
  @search Model.builtins ps "  "
  = {| sr_projects := [ {| psr_name := "Alpha" |} ];
       sr_versions := [ {| vsr_project := "Alpha"; vsr_version := "1.0.0" |};
                        {| vsr_project := "Alpha"; vsr_version := "stable" |};
                        {| vsr_project := "Alpha"; vsr_version := "lts" |} ] |}.
Proof.
  intros ps.
  destruct (@search_empty_query Model.builtins ps "  " eq_refl) as [Hp Hv].
  destruct (@search Model.builtins ps "  ") as [projects versions'] eqn:E.
  simpl in Hp, Hv. rewrite Hp, Hv. reflexivity.
Defined.

(** ** Sorting *)

Lemma consistent_incl {A : Type} (cmp : A -> A -> Z) (l l' : list A) :
  consistent cmp l -> incl l' l -> consistent cmp l'.
Proof.
  intros [Hsign Htrans] Hincl. split.
  - intros x y Hx Hy. apply Hsign; now apply Hincl.
  - intros x y z Hx Hy Hz. apply Htrans; now apply Hincl.
Qed.

Lemma consistent_refl {A : Type} (cmp : A -> A -> Z) (l : list A) (x : A) :
  consistent cmp l -> In x l -> cmp x x = 0.
Proof.
  intros [Hsign _] Hx. specialize (Hsign x x Hx Hx). lia.
Qed.

Lemma insert_permutation {A : Type} (cmp : A -> A -> Z) (x : A) (l : list A) :
  Permutation (x :: l) (Model.insert cmp x l).
Proof.
  induction l as [| y l IH]; simpl; [reflexivity |].
  destruct (cmp x y <? 0); [reflexivity |].
  rewrite perm_swap. now constructor.
Qed.

Lemma insert_sorted {A : Type} (cmp : A -> A -> Z) (x : A) (l : list A) :
  consistent cmp (x :: l) ->
  StronglySorted (fun a b => cmp a b <= 0) l ->
  StronglySorted (fun a b => cmp a b <= 0) (Model.insert cmp x l).
Proof.
  intros Hcons Hsorted.
  induction Hsorted as [| y l Hsorted IH Hy]; simpl.
  - repeat constructor.
  - destruct Hcons as [Hsign Htrans].
    destruct (Z.ltb_spec (cmp x y) 0) as [Hlt | Hge].
    + constructor; [now constructor |].
      constructor; [lia |].
      rewrite List.Forall_forall in Hy |- *. intros z Hz.
      apply (Htrans x y z); simpl; auto; lia.
    + constructor.
      * apply IH. apply (consistent_incl cmp (x :: y :: l)); [now split |].
        intros z [<- | Hz]; simpl; auto.
      * rewrite List.Forall_forall in Hy |- *. intros z Hz.
        apply (Permutation_in _ (Permutation_sym (insert_permutation cmp x l)))
          in Hz.
        destruct Hz as [<- | Hz]; [| now apply Hy].
        assert (cmp x y < 0 <-> 0 < cmp y x) by (apply Hsign; simpl; auto).
        lia.
Qed.

Lemma fold_insert_permutation {A : Type} (cmp : A -> A -> Z) (l acc : list A) :
  Permutation (acc ++ l)%list (fold_left (fun acc x => Model.insert cmp x acc) l acc).
Proof.
  revert acc. induction l as [| x l IH]; intros acc; simpl.
  - now rewrite app_nil_r.
  - rewrite <- IH, <- insert_permutation. simpl.
    apply Permutation_sym, Permutation_middle.
Qed.

Lemma fold_insert_sorted {A : Type} (cmp : A -> A -> Z) (l acc : list A) :
  consistent cmp (acc ++ l)%list ->
  StronglySorted (fun a b => cmp a b <= 0) acc ->
  StronglySorted (fun a b => cmp a b <= 0)
    (fold_left (fun acc x => Model.insert cmp x acc) l acc).
Proof.
  revert acc. induction l as [| x l IH]; intros acc Hcons Hsorted; simpl.
  - exact Hsorted.
  - apply IH.
    + apply (consistent_incl cmp _ _ Hcons). intros z Hz.
      apply in_app_or in Hz as [Hz | Hz].
      * apply (Permutation_in _ (Permutation_sym (insert_permutation cmp x acc)))
          in Hz.
        apply in_or_app. destruct Hz as [<- | Hz]; simpl; auto.
      * apply in_or_app. simpl. auto.
    + apply insert_sorted; [| exact Hsorted].
      apply (consistent_incl cmp _ _ Hcons). intros z [<- | Hz];
        apply in_or_app; simpl; auto.
Qed.

(** The insertion sort keeps the promise of [Array.prototype.sort]. *)
Lemma model_sort_contract : @sort_contract Model.builtins.
Proof.
  intros A cmp l. simpl. unfold Model.insertion_sort. split.
  - apply (fold_insert_permutation cmp l []).
  - intros Hcons. apply fold_insert_sorted; [exact Hcons | constructor].
Qed.

Lemma sorted_last_greatest {A : Type} (R : A -> A -> Prop) (init : list A) (r : A) :
  StronglySorted R (init ++ [r])%list -> forall v, In v init -> R v r.
Proof.
  induction init as [| x init IH]; simpl; intros Hs v Hv; [contradiction |].
  apply StronglySorted_inv in Hs as [Hs Hx].
  destruct Hv as [<- | Hv]; [| now apply IH].
  rewrite List.Forall_forall in Hx. apply Hx, in_or_app. simpl. auto.
Qed.

Lemma index_last {A : Type} (init : list A) (r : A) :
  Js.index (init ++ [r])%list (Js.length (init ++ [r])%list - 1) = Some r.
Proof.
  unfold Js.index, Js.length. rewrite length_app. simpl.
  destruct (Z.ltb_spec (Z.of_nat (List.length init + 1) - 1) 0) as [Hlt | _];
    [lia |].
  apply list_lookup_middle. lia.
Qed.

(** ** getLatestVersion *)

Section LatestVersion.
Context `{SemverLib} `{JsBuiltins}.

Lemma tag_find_first (pre : list ProjectDetails) (v : ProjectDetails)
    (post : list ProjectDetails) :
  Forall (fun u => ~ In "latest" (tags u)) pre -> In "latest" (tags v) ->
  find (fun u => Js.array_includes (tags u) "latest") (pre ++ v :: post) = Some v.
Proof.
  intros Hpre Hv. apply find_first.
  - revert Hpre. apply List.Forall_impl. intros u Hu.
    destruct (Js.array_includes (tags u) "latest") eqn:E; [| reflexivity].
    now apply array_includes_In in E.
  - now apply array_includes_In.
Qed.

Lemma tag_find_nothing (l : list ProjectDetails) :
  Forall (fun u => ~ In "latest" (tags u)) l ->
  find (fun u => Js.array_includes (tags u) "latest") l = None.
Proof.
  intros Hl. apply find_nothing.
  revert Hl. apply List.Forall_impl. intros u Hu.
  destruct (Js.array_includes (tags u) "latest") eqn:E; [| reflexivity].
  now apply array_includes_In in E.
Qed.

(** The array after the call: untouched when a name or a tag decides,
    sorted in place otherwise. *)
Lemma getLatestVersion_array (versions : list ProjectDetails) :
  snd (getLatestVersion versions) = versions \/
  snd (getLatestVersion versions)
  = array_sort (fun a b : ProjectDetails => compareVersions a b) versions.
Proof.
  unfold getLatestVersion.
  destruct (find _ versions); [now left |].
  destruct (find _ versions); [now left | now right].
Qed.

(** With no name and no tag to decide, the result is the last element of
    the sorted array. *)
Lemma getLatestVersion_sorted_last (versions : list ProjectDetails) :
  sort_contract -> versions <> [] ->
  Forall (fun u => Js.includes (name u) "latest" = false) versions ->
  Forall (fun u => ~ In "latest" (tags u)) versions ->
  exists init r,
    array_sort (fun a b : ProjectDetails => compareVersions a b) versions
    = (init ++ [r])%list /\
    getLatestVersion versions = (Js.Return (Some r), (init ++ [r])%list).
Proof.
  intros Hsort Hne Hnames Htags.
  destruct (Hsort _ (fun a b : ProjectDetails => compareVersions a b) versions)
    as [Hperm _].
  destruct (exists_last
              (l := array_sort (fun a b : ProjectDetails => compareVersions a b)
                      versions)) as (init & r & Heq).
  - intros Hnil. rewrite Hnil in Hperm.
    now apply Permutation_sym, Permutation_nil in Hperm.
  - exists init, r. split; [exact Heq |].
    unfold getLatestVersion.
    rewrite (find_nothing _ _ Hnames), (tag_find_nothing _ Htags).
    cbv zeta. rewrite Heq, index_last. reflexivity.
Qed.


End LatestVersion.




(** C5: the call reorders the array it is given. With ["2.0.0"] before
    ["1.0.0"] and no name or tag to decide, the array holds ["1.0.0"] before
    ["2.0.0"] after the call. *)
Theorem getLatestVersion_reorders_input :
  let v2 := {| name := "2.0.0"; tags := []; hidden := false |} in
  let v1 := {| name := "1.0.0"; tags := []; hidden := false |} in
  @getLatestVersion Model.semver Model.builtins [v2; v1]
  = (Js.Return (Some v2), [v1; v2]) /\
  snd (@getLatestVersion Model.semver Model.builtins [v2; v1]) <> [v2; v1].
Proof. split; [reflexivity | discriminate]. Qed.

(** ** filterHiddenVersions *)

Lemma holds_weaken (h h' : heap) (ls : list loc) (ps : list Project) :
  h ⊆ h' -> holds h ls ps -> holds h' ls ps.
Proof.
  intros Hsub Hh. induction Hh as [| l p ls ps Hl _ IH]; constructor.
  - exact (lookup_weaken h h' l p Hl Hsub).
  - exact IH.
Qed.

Lemma fresh_unused (h : heap) : h !! fresh (dom h) = None.
Proof. apply not_elem_of_dom, is_fresh. Qed.

Lemma bind_run {A B : Type} (m : M A) (k : A -> M B) (h : heap) (a : A)
    (h' : heap) :
  m h = Some (a, h') -> bind m k h = k a h'.
Proof. intros Hm. unfold bind. now rewrite Hm. Qed.

(** The copy: new objects with the contents of the old ones, which stay as
    they were. *)
Lemma JSON_parse_stringify_spec (ls : list loc) :
  forall (h : heap) (ps : list Project),
    holds h ls ps ->
    exists ls' h',
      JSON_parse_stringify ls h = Some (ls', h') /\
      h ⊆ h' /\
      holds h' ls' ps /\
      Forall (fun l => h !! l = None) ls' /\
      NoDup ls'.
Proof.
  unfold JSON_parse_stringify.
  induction ls as [| l ls IH]; intros h ps Hh.
  - inversion Hh; subst. exists [], h.
    split; [reflexivity |]. split; [reflexivity |].
    split; [constructor |]. split; constructor.
  - inversion Hh as [| l0 p ls0 ps' Hl Hrest]; subst.
    assert (Hfresh := fresh_unused h).
    set (l' := fresh (dom h)) in *.
    assert (Hsub : h ⊆ <[l' := p]> h) by (apply insert_subseteq; exact Hfresh).
    destruct (IH (<[l' := p]> h) ps' (holds_weaken _ _ _ _ Hsub Hrest))
      as (ls' & h' & Hrun & Hsub' & Hcopy & Hnew & Hnodup).
    exists (l' :: ls'), h'.
    assert (Hl' : h' !! l' = Some p).
    { apply (lookup_weaken (<[l' := p]> h)); [apply lookup_insert_eq | exact Hsub']. }
    split; [| split; [| split; [| split]]].
    + assert (Hcopy1 : (let* q := read l in alloc q) h = Some (l', <[l' := p]> h)).
      { rewrite (bind_run _ _ h p h); [reflexivity |]. unfold read. now rewrite Hl. }
      simpl. rewrite (bind_run _ _ _ _ _ Hcopy1), (bind_run _ _ _ _ _ Hrun).
      reflexivity.
    + now transitivity (<[l' := p]> h).
    + constructor; assumption.
    + constructor; [exact Hfresh |].
      revert Hnew. apply List.Forall_impl. intros k Hk.
      destruct (h !! k) as [q |] eqn:E; [| reflexivity].
      rewrite (lookup_weaken _ _ _ _ E Hsub) in Hk. discriminate.
    + constructor; [| exact Hnodup].
      intros Hin%list_elem_of_In. rewrite List.Forall_forall in Hnew.
      specialize (Hnew l' Hin). rewrite lookup_insert_eq in Hnew. discriminate.
Qed.

(** The loop over the copies: each one loses its hidden versions, every
    other object stays as it was. *)
Lemma forEach_strip_spec (ls : list loc) :
  forall (h : heap) (ps : list Project),
    holds h ls ps -> NoDup ls ->
    exists h',
      forEach
        (fun p =>
           let* obj := read p in
           write p {| project_name := project_name obj;
                      versions :=
                        List.filter (fun v => negb (hidden v)) (versions obj) |})
        ls h = Some (tt, h') /\
      holds h' ls (map without_hidden ps) /\
      (forall l, ~ In l ls -> h' !! l = h !! l).
Proof.
  induction ls as [| l ls IH]; intros h ps Hh Hnodup.
  - inversion Hh; subst. exists h. split; [reflexivity |].
    split; [constructor | reflexivity].
  - inversion Hh as [| l0 p ls0 ps' Hl Hrest]; subst.
    apply NoDup_cons in Hnodup as [Hnotin Hnodup].
    assert (Hrest' : holds (<[l := without_hidden p]> h) ls ps').
    { clear IH Hh Hnodup. induction Hrest as [| k q ks qs Hk _ IHr];
        constructor.
      - rewrite lookup_insert_ne; [exact Hk |].
        intros ->. apply Hnotin. now left.
      - apply IHr. intros Hin. apply Hnotin. now right. }
    destruct (IH _ _ Hrest' Hnodup) as (h' & Hrun & Hstripped & Hframe).
    assert (Hnotin' : ~ In l ls) by (intros Hin%list_elem_of_In; now apply Hnotin).
    exists h'. split; [| split].
    + simpl.
      assert (Hstep : (let* obj := read l in
                       write l {| project_name := project_name obj;
                                  versions :=
                                    List.filter (fun v => negb (hidden v))
                                      (versions obj) |}) h
                      = Some (tt, <[l := without_hidden p]> h)).
      { rewrite (bind_run _ _ h p h); [| unfold read; now rewrite Hl].
        unfold write. now rewrite Hl. }
      rewrite (bind_run _ _ _ _ _ Hstep). exact Hrun.
    + simpl. constructor; [| exact Hstripped].
      rewrite (Hframe l Hnotin'). apply lookup_insert_eq.
    + intros k Hk. rewrite Hframe; [| intros Hin; apply Hk; now right].
      apply lookup_insert_ne. intros ->. apply Hk. now left.
Qed.

(** The final filter reads the heap and keeps the objects that still have a
    version. *)
Lemma filterM_nonempty_spec (ls : list loc) :
  forall (h : heap) (qs : list Project),
    holds h ls qs ->
    exists res,
      filterM (fun p => let* obj := read p in ret (0 <? Js.length (versions obj)))
        ls h = Some (res, h) /\
      holds h res (List.filter has_versions qs) /\
      incl res ls.
Proof.
  induction ls as [| l ls IH]; intros h qs Hh.
  - inversion Hh; subst. exists []. split; [reflexivity |].
    split; [constructor | apply incl_refl].
  - inversion Hh as [| l0 q ls0 qs' Hl Hrest]; subst.
    destruct (IH h qs' Hrest) as (res & Hrun & Hres & Hincl).
    assert (Hstep : (let* obj := read l in ret (0 <? Js.length (versions obj))) h
                    = Some (has_versions q, h)).
    { rewrite (bind_run _ _ h q h); [| unfold read; now rewrite Hl].
      unfold ret, has_versions, Js.length. now destruct (versions q). }
    exists (if has_versions q then l :: res else res). split; [| split].
    + simpl. rewrite (bind_run _ _ _ _ _ Hstep), (bind_run _ _ _ _ _ Hrun).
      reflexivity.
    + simpl. destruct (has_versions q); [constructor |]; assumption.
    + destruct (has_versions q).
      * intros k [<- | Hk]; [now left | right; now apply Hincl].
      * intros k Hk. right. now apply Hincl.
Qed.

Lemma without_hidden_all_visible (p : Project) :
  Forall (fun v => hidden v = false) (versions (without_hidden p)).
Proof.
  apply List.Forall_forall. intros v Hv. simpl in Hv.
  apply filter_In in Hv as [_ Hv]. unfold visible in Hv. now destruct (hidden v).
Qed.

(** C6: the call returns a new collection holding, for each input project
    in order, a copy without the versions whose [hidden] is true, the
    projects left with no version being dropped; and no object that existed
    before the call, the input projects among them, is changed by it. *)
Theorem filterHiddenVersions_spec (h : heap) (allProjects : list loc)
    (ps : list Project) :
  holds h allProjects ps ->
  exists projects h',
    filterHiddenVersions allProjects h = Some (projects, h') /\
    holds h' projects (List.filter has_versions (map without_hidden ps)) /\
    Forall (fun q => versions q <> [] /\
                     Forall (fun v => hidden v = false) (versions q))
      (List.filter has_versions (map without_hidden ps)) /\
    (forall l p, h !! l = Some p -> h' !! l = Some p) /\
    holds h' allProjects ps /\
    Forall (fun l => h !! l = None) projects.
Proof.
  intros Hh.
  destruct (JSON_parse_stringify_spec allProjects h ps Hh)
    as (copies & h1 & Hcopy & Hsub & Hcopies & Hnew & Hnodup).
  destruct (forEach_strip_spec copies h1 ps Hcopies Hnodup)
    as (h2 & Hloop & Hstripped & Hframe).
  destruct (filterM_nonempty_spec copies h2 _ Hstripped)
    as (res & Hfilter & Hres & Hincl).
  assert (Hkept : forall l p, h !! l = Some p -> h2 !! l = Some p).
  { intros l p Hl. rewrite Hframe.
    - exact (lookup_weaken _ _ _ _ Hl Hsub).
    - intros Hin. rewrite List.Forall_forall in Hnew.
      rewrite (Hnew l Hin) in Hl. discriminate. }
  exists res, h2. split; [| split; [| split; [| split; [| split]]]].
  - unfold filterHiddenVersions.
    rewrite (bind_run _ _ _ _ _ Hcopy), (bind_run _ _ _ _ _ Hloop).
    exact Hfilter.
  - exact Hres.
  - apply List.Forall_forall. intros q Hq.
    apply filter_In in Hq as [Hq Hnonempty].
    apply in_map_iff in Hq as (p & <- & _). split.
    + unfold has_versions in Hnonempty.
      now destruct (versions (without_hidden p)).
    + apply without_hidden_all_visible.
  - exact Hkept.
  - unfold holds in *. apply (Forall2_impl _ _ _ _ Hh). intros l p. apply Hkept.
  - apply List.Forall_forall. intros l Hl.
    rewrite List.Forall_forall in Hnew. apply Hnew, Hincl, Hl.
Qed.

Lemma filterHiddenVersions_spec_witness :
  let alpha :=
    {| project_name := "Alpha";
       versions := [ {| name := "1.0.0"; tags := ["stable"]; hidden := false |};
                     {| name := "0.9.0"; tags := []; hidden := true |} ] |} in
  let beta :=
    {| project_name := "beta";
       versions := [ {| name := "2.0.0"; tags := []; hidden := true |} ] |} in
  let h : heap := <[1%positive := alpha]> (<[2%positive := beta]> ∅) in
  exists projects h',
    filterHiddenVersions [1%positive; 2%positive] h = Some (projects, h') /\
    holds h' projects
      [ {| project_name := "Alpha";
           versions := [ {| name := "1.0.0"; tags := ["stable"];
                            hidden := false |} ] |} ] /\
    holds h' [1%positive; 2%positive] [alpha; beta].
Proof.
  intros alpha beta h.
  assert (Hh : holds h [1%positive; 2%positive] [alpha; beta])
    by (repeat constructor).
  destruct (filterHiddenVersions_spec h [1%positive; 2%positive] [alpha; beta] Hh)
    as (projects & h' & Hrun & Hres & _ & _ & Hkept & _).
  exists projects, h'. split; [exact Hrun |]. split; [exact Hres | exact Hkept].
Defined.

(** The call on two projects, the second with hidden versions only: one new
    object is returned, at an address that was not in use. *)
Example filterHiddenVersions_run :
  let alpha :=
    {| project_name := "Alpha";
       versions := [ {| name := "1.0.0"; tags := ["stable"]; hidden := false |};
                     {| name := "0.9.0"; tags := []; hidden := true |} ] |} in
  let beta :=
    {| project_name := "beta";
       versions := [ {| name := "2.0.0"; tags := []; hidden := true |} ] |} in
  let h : heap := <[1%positive := alpha]> (<[2%positive := beta]> ∅) in
  fst <$> filterHiddenVersions [1%positive; 2%positive] h = Some [3%positive].
Proof. vm_compute. reflexivity. Qed.

(** ** The array after getLatestVersion, in general *)

(** With no name and no tag to decide and a consistent comparator, the
    caller's array is left in ascending order: an input that is not already
    in that order is changed. *)
Lemma getLatestVersion_leaves_sorted `{SemverLib} `{JsBuiltins}
    (versions : list ProjectDetails) :
  sort_contract ->
  Forall (fun u => Js.includes (name u) "latest" = false) versions ->
  Forall (fun u => ~ In "latest" (tags u)) versions ->
  consistent (fun a b : ProjectDetails => compareVersions a b) versions ->
  Permutation versions (snd (getLatestVersion versions)) /\
  StronglySorted (fun a b : ProjectDetails => compareVersions a b <= 0)
    (snd (getLatestVersion versions)).
Proof.
  intros Hsort Hnames Htags Hcons. unfold getLatestVersion.
  rewrite (find_nothing _ _ Hnames), (tag_find_nothing _ Htags). cbv zeta.
  destruct (Hsort _ (fun a b : ProjectDetails => compareVersions a b) versions)
    as [Hperm Hsorted].
  split; [exact Hperm | exact (Hsorted Hcons)].
Qed.

(** ** The examples of the specification *)

(** Semantic, not lexical, ordering: 1.2.3 is below 1.10.0. *)
Example compare_semantic :
  @compareVersions Model.semver Model.builtins
    {| arg_name := "1.2.3"; arg_tags := None |}
    {| arg_name := "1.10.0"; arg_tags := None |} = -1 /\
  lexical_compare "1.10.0" "1.2.3" = -1.
Proof. split; reflexivity. Qed.

(** The substring rule fires before the tag and the version rules. *)
Example pickCurrent_name :
  let v1 := {| name := "1.0.0"; tags := []; hidden := false |} in
  let v2 := {| name := "latest-build"; tags := []; hidden := false |} in
  @getLatestVersion Model.semver Model.builtins [v1; v2]
  = (Js.Return (Some v2), [v1; v2]).
Proof. reflexivity. Qed.

(** The tagged entry is returned. *)
Example pickCurrent_tag :
  let v1 := {| name := "1.0.0"; tags := []; hidden := false |} in
  let v2 := {| name := "2.0.0"; tags := ["latest"]; hidden := false |} in
  @getLatestVersion Model.semver Model.builtins [v1; v2]
  = (Js.Return (Some v2), [v1; v2]).
Proof. reflexivity. Qed.

(** Matching ignores case, a project with hidden versions only is not
    listed, and a matching tag surfaces as the version field. *)
Example search_examples :
  let ps :=
    [ {| project_name := "Alpha";
         versions := [ {| name := "1.0.0"; tags := ["v1-beta"]; hidden := false |} ] |};
      {| project_name := "alpha-hidden";
         versions := [ {| name := "0.1.0"; tags := ["beta"]; hidden := true |} ] |} ] in
  @search Model.builtins ps "ALPHA"
  = {| sr_projects := [ {| psr_name := "Alpha" |} ]; sr_versions := [] |} /\
  @search Model.builtins ps " beta "
  = {| sr_projects := [];
       sr_versions := [ {| vsr_project := "Alpha"; vsr_version := "v1-beta" |} ] |}.
Proof. split; reflexivity. Qed.

(** Marking and unmarking a favourite leaves no key behind. *)
Example favorite_round_trip :
  isFavorite ∅ "docat" = false /\
  isFavorite (setFavorite ∅ "docat" true) "docat" = true /\
  setFavorite (setFavorite ∅ "docat" true) "docat" false = ∅.
Proof.
  split; [reflexivity |]. split; [reflexivity |].
  unfold setFavorite, setItem, removeItem.
  rewrite delete_insert_eq. apply delete_empty.
Qed.

(** ** More on the model of the libraries: both comparisons are orders *)

Lemma compareIdentifiers_cases (a b : N) :
  (Model.compareIdentifiers a b = -1 /\ (a < b)%N) \/
  (Model.compareIdentifiers a b = 0 /\ a = b) \/
  (Model.compareIdentifiers a b = 1 /\ (b < a)%N).
Proof.
  unfold Model.compareIdentifiers.
  destruct (N.compare_spec a b); auto.
Qed.

Lemma model_compare_range (x y : Model.Version) :
  Model.compare x y = -1 \/ Model.compare x y = 0 \/ Model.compare x y = 1.
Proof.
  unfold Model.compare, Model.or_else.
  destruct (compareIdentifiers_cases (Model.major x) (Model.major y))
    as [[-> _] | [[-> _] | [-> _]]];
  destruct (compareIdentifiers_cases (Model.minor x) (Model.minor y))
    as [[-> _] | [[-> _] | [-> _]]];
  destruct (compareIdentifiers_cases (Model.patch x) (Model.patch y))
    as [[-> _] | [[-> _] | [-> _]]];
  simpl; auto.
Qed.

(** [compare] is the lexicographic order of the triples. *)
Lemma model_compare_le_iff (x y : Model.Version) :
  Model.compare x y <= 0 <->
  (Model.major x < Model.major y \/
   (Model.major x = Model.major y /\
    (Model.minor x < Model.minor y \/
     (Model.minor x = Model.minor y /\ Model.patch x <= Model.patch y))))%N.
Proof.
  unfold Model.compare, Model.or_else.
  destruct (compareIdentifiers_cases (Model.major x) (Model.major y))
    as [[-> ?] | [[-> ?] | [-> ?]]];
  destruct (compareIdentifiers_cases (Model.minor x) (Model.minor y))
    as [[-> ?] | [[-> ?] | [-> ?]]];
  destruct (compareIdentifiers_cases (Model.patch x) (Model.patch y))
    as [[-> ?] | [[-> ?] | [-> ?]]];
  simpl; lia.
Qed.

Lemma model_compare_trans (x y z : Model.Version) :
  Model.compare x y <= 0 -> Model.compare y z <= 0 -> Model.compare x z <= 0.
Proof. rewrite !model_compare_le_iff. lia. Qed.

Lemma model_compare_sign (x y : Model.Version) :
  Model.compare x y < 0 <-> 0 < Model.compare y x.
Proof. rewrite (model_compare_antisym x y). lia. Qed.

Lemma model_compare_refl (x : Model.Version) : Model.compare x x = 0.
Proof. assert (H := model_compare_antisym x x). lia. Qed.

Lemma compare_keys_eq_left (key : ascii -> N) (s t u : string) :
  Model.compare_keys key s t = Eq ->
  Model.compare_keys key s u = Model.compare_keys key t u.
Proof.
  revert t u. induction s as [| a s IH]; intros [| b t] [| c u]; simpl;
    intros Hst; try reflexivity; try discriminate.
  destruct (N.compare_spec (key a) (key b)) as [Hab | |]; try discriminate.
  rewrite Hab. now rewrite (IH t u Hst).
Qed.

Lemma compare_keys_lt_trans (key : ascii -> N) (s t u : string) :
  Model.compare_keys key s t = Lt ->
  Model.compare_keys key t u <> Gt ->
  Model.compare_keys key s u = Lt.
Proof.
  revert t u. induction s as [| a s IH]; intros [| b t] [| c u]; simpl;
    intros Hst Htu; try reflexivity; try discriminate; try congruence.
  destruct (N.compare_spec (key a) (key b)) as [Hab | Hab | Hab];
    try discriminate;
    destruct (N.compare_spec (key b) (key c)) as [Hbc | Hbc | Hbc];
    try congruence;
    destruct (N.compare_spec (key a) (key c)) as [Hac | Hac | Hac];
    try reflexivity; try lia.
  now apply (IH t u).
Qed.

Lemma compare_keys_not_gt_trans (key : ascii -> N) (s t u : string) :
  Model.compare_keys key s t <> Gt ->
  Model.compare_keys key t u <> Gt ->
  Model.compare_keys key s u <> Gt.
Proof.
  intros Hst Htu. destruct (Model.compare_keys key s t) eqn:E.
  - now rewrite (compare_keys_eq_left key s t u E).
  - now rewrite (compare_keys_lt_trans key s t u E Htu).
  - congruence.
Qed.

Lemma collate_range (s t : string) :
  Model.collate s t = -1 \/ Model.collate s t = 0 \/ Model.collate s t = 1.
Proof.
  unfold Model.collate.
  destruct (Model.compare_keys Model.primary s t);
    [destruct (Model.compare_keys Model.tertiary s t) | |]; simpl; auto.
Qed.

Lemma collate_le_iff (s t : string) :
  Model.collate s t <= 0 <->
  Model.compare_keys Model.primary s t = Lt \/
  (Model.compare_keys Model.primary s t = Eq /\
   Model.compare_keys Model.tertiary s t <> Gt).
Proof.
  unfold Model.collate.
  destruct (Model.compare_keys Model.primary s t);
    [destruct (Model.compare_keys Model.tertiary s t) | |]; simpl;
    intuition (try discriminate; try congruence; try lia).
Qed.

Lemma collate_trans (s t u : string) :
  Model.collate s t <= 0 -> Model.collate t u <= 0 -> Model.collate s u <= 0.
Proof.
  rewrite !collate_le_iff. intros [Hst | [Hst Hst']] [Htu | [Htu Htu']].
  - left. apply (compare_keys_lt_trans _ s t u Hst). congruence.
  - left. apply (compare_keys_lt_trans _ s t u Hst). congruence.
  - left. now rewrite (compare_keys_eq_left _ s t u Hst).
  - right. split.
    + now rewrite (compare_keys_eq_left _ s t u Hst).
    + now apply (compare_keys_not_gt_trans _ s t u).
Qed.

Lemma collate_sign (s t : string) :
  Model.collate s t < 0 <-> 0 < Model.collate t s.
Proof. rewrite (collate_antisym s t). lia. Qed.

Lemma collate_refl (s : string) : Model.collate s s = 0.
Proof. assert (H := collate_antisym s s). lia. Qed.

(** ** More on compareVersions *)

Section CompareMore.
Context `{SemverLib} `{JsBuiltins}.

Lemma tagged_as_arg (v : ProjectDetails) :
  tagged_latest v <-> In "latest" (tags v).
Proof.
  unfold tagged_latest. simpl. split.
  - intros (ts & [= <-] & Hin). exact Hin.
  - intros Hin. now exists (tags v).
Qed.

Lemma compareVersions_coerced (a b : VersionArg) (sa sb : SemVer) :
  ~ tagged_latest a -> ~ tagged_latest b ->
  semver_coerce (arg_name a) = Some sa -> semver_coerce (arg_name b) = Some sb ->
  compareVersions a b = semver_compare sa sb.
Proof.
  intros Ha%has_latest_tag_false Hb%has_latest_tag_false Hsa Hsb.
  unfold compareVersions. now rewrite Ha, Hb, Hsa, Hsb.
Qed.

Lemma compareVersions_uncoerced (a b : VersionArg) :
  ~ tagged_latest a -> ~ tagged_latest b ->
  semver_coerce (arg_name a) = None ->
  compareVersions a b = localeCompare (arg_name a) (arg_name b).
Proof.
  intros Ha%has_latest_tag_false Hb%has_latest_tag_false Hsa.
  unfold compareVersions. now rewrite Ha, Hb, Hsa.
Qed.

(** X1: a version tagged ["latest"] is above every other version, tagged or
    not, and a version that is not tagged is below every tagged one; the
    names play no part. *)
Theorem compareVersions_latest_wins (a b : VersionArg) :
  (tagged_latest a -> compareVersions a b = 1) /\
  (~ tagged_latest a -> tagged_latest b -> compareVersions a b = -1).
Proof.
  split.
  - intros Ha%has_latest_tag_iff. unfold compareVersions. now rewrite Ha.
  - intros Ha%has_latest_tag_false Hb%has_latest_tag_iff.
    unfold compareVersions. now rewrite Ha, Hb.
Qed.

(** X2: the result is -1, 0 or 1 whenever the two library comparisons return
    one of these. *)
Theorem compareVersions_range
    (Hsemver : forall x y, semver_compare x y = -1 \/ semver_compare x y = 0 \/
                           semver_compare x y = 1)
    (Hlocale : forall s t, localeCompare s t = -1 \/ localeCompare s t = 0 \/
                           localeCompare s t = 1)
    (a b : VersionArg) :
  compareVersions a b = -1 \/ compareVersions a b = 0 \/ compareVersions a b = 1.
Proof.
  unfold compareVersions.
  destruct (has_latest_tag a); [auto |].
  destruct (has_latest_tag b); [auto |].
  destruct (semver_coerce (arg_name a)), (semver_coerce (arg_name b)); simpl;
    auto.
Qed.

(** X3: compared with itself a version tagged ["latest"] is above itself
    (the result is 1, not 0); a version that is not tagged is equal to
    itself, the library comparisons being reflexive. *)
Theorem compareVersions_self
    (Hsemver : forall x, semver_compare x x = 0)
    (Hlocale : forall s, localeCompare s s = 0)
    (a : VersionArg) :
  (tagged_latest a -> compareVersions a a = 1) /\
  (~ tagged_latest a -> compareVersions a a = 0).
Proof.
  split.
  - intros Ha%has_latest_tag_iff. unfold compareVersions. now rewrite Ha.
  - intros Ha%has_latest_tag_false. unfold compareVersions. rewrite Ha.
    destruct (semver_coerce (arg_name a)); simpl; auto.
Qed.

(** On versions without the tag whose names all coerce, or none of whose
    names coerces, the comparison is that of one library. *)
Lemma homogeneous_consistent
    (Hs_sign : forall x y, semver_compare x y < 0 <-> 0 < semver_compare y x)
    (Hs_trans : forall x y z, semver_compare x y <= 0 -> semver_compare y z <= 0 ->
                              semver_compare x z <= 0)
    (Hl_sign : forall s t, localeCompare s t < 0 <-> 0 < localeCompare t s)
    (Hl_trans : forall s t u, localeCompare s t <= 0 -> localeCompare t u <= 0 ->
                              localeCompare s u <= 0)
    (l : list ProjectDetails) :
  Forall (fun v => ~ In "latest" (tags v)) l ->
  Forall (fun v => is_Some (semver_coerce (name v))) l \/
  Forall (fun v => semver_coerce (name v) = None) l ->
  consistent (fun a b : ProjectDetails => compareVersions a b) l.
Proof.
  intros Htags Hnames.
  rewrite List.Forall_forall in Htags.
  assert (Hnot : forall v, In v l -> ~ tagged_latest v).
  { intros v Hv Ht%tagged_as_arg. exact (Htags v Hv Ht). }
  destruct Hnames as [Hall | Hnone]; rewrite List.Forall_forall in *.
  - split.
    + intros x y Hx Hy.
      destruct (Hall x Hx) as [sx Hsx], (Hall y Hy) as [sy Hsy].
      rewrite (compareVersions_coerced x y sx sy (Hnot x Hx) (Hnot y Hy) Hsx Hsy),
              (compareVersions_coerced y x sy sx (Hnot y Hy) (Hnot x Hx) Hsy Hsx).
      apply Hs_sign.
    + intros x y z Hx Hy Hz.
      destruct (Hall x Hx) as [sx Hsx], (Hall y Hy) as [sy Hsy],
               (Hall z Hz) as [sz Hsz].
      rewrite (compareVersions_coerced x y sx sy (Hnot x Hx) (Hnot y Hy) Hsx Hsy),
              (compareVersions_coerced y z sy sz (Hnot y Hy) (Hnot z Hz) Hsy Hsz),
              (compareVersions_coerced x z sx sz (Hnot x Hx) (Hnot z Hz) Hsx Hsz).
      apply Hs_trans.
  - split.
    + intros x y Hx Hy.
      rewrite (compareVersions_uncoerced x y (Hnot x Hx) (Hnot y Hy) (Hnone x Hx)),
              (compareVersions_uncoerced y x (Hnot y Hy) (Hnot x Hx) (Hnone y Hy)).
      apply Hl_sign.
    + intros x y z Hx Hy Hz.
      rewrite (compareVersions_uncoerced x y (Hnot x Hx) (Hnot y Hy) (Hnone x Hx)),
              (compareVersions_uncoerced y z (Hnot y Hy) (Hnot z Hz) (Hnone y Hy)),
              (compareVersions_uncoerced x z (Hnot x Hx) (Hnot z Hz) (Hnone x Hx)).
      apply Hl_trans.
Qed.

(** X4: on a sequence of versions none of which is tagged ["latest"] and
    whose names either all coerce to a semantic version or all fail to,
    [compareVersions] is a consistent comparator (opposite signs when the
    arguments are swapped, transitive), the two library comparisons being
    orders. *)
Theorem compareVersions_consistent
    (Hs_sign : forall x y, semver_compare x y < 0 <-> 0 < semver_compare y x)
    (Hs_trans : forall x y z, semver_compare x y <= 0 -> semver_compare y z <= 0 ->
                              semver_compare x z <= 0)
    (Hl_sign : forall s t, localeCompare s t < 0 <-> 0 < localeCompare t s)
    (Hl_trans : forall s t u, localeCompare s t <= 0 -> localeCompare t u <= 0 ->
                              localeCompare s u <= 0)
    (l : list ProjectDetails) :
  Forall (fun v => ~ In "latest" (tags v)) l ->
  Forall (fun v => is_Some (semver_coerce (name v))) l \/
  Forall (fun v => semver_coerce (name v) = None) l ->
  consistent (fun a b : ProjectDetails => compareVersions a b) l.
Proof.
  intros Htags Hnames.
  rewrite List.Forall_forall in Htags.
  assert (Hnot : forall v, In v l -> ~ tagged_latest v).
  { intros v Hv Ht%tagged_as_arg. exact (Htags v Hv Ht). }
  destruct Hnames as [Hall | Hnone]; rewrite List.Forall_forall in *.
  - split.
    + intros x y Hx Hy.
      destruct (Hall x Hx) as [sx Hsx], (Hall y Hy) as [sy Hsy].
      rewrite (compareVersions_coerced x y sx sy (Hnot x Hx) (Hnot y Hy) Hsx Hsy),
              (compareVersions_coerced y x sy sx (Hnot y Hy) (Hnot x Hx) Hsy Hsx).
      apply Hs_sign.
    + intros x y z Hx Hy Hz.
      destruct (Hall x Hx) as [sx Hsx], (Hall y Hy) as [sy Hsy],
               (Hall z Hz) as [sz Hsz].
      rewrite (compareVersions_coerced x y sx sy (Hnot x Hx) (Hnot y Hy) Hsx Hsy),
              (compareVersions_coerced y z sy sz (Hnot y Hy) (Hnot z Hz) Hsy Hsz),
              (compareVersions_coerced x z sx sz (Hnot x Hx) (Hnot z Hz) Hsx Hsz).
      apply Hs_trans.
  - split.
    + intros x y Hx Hy.
      rewrite (compareVersions_uncoerced x y (Hnot x Hx) (Hnot y Hy) (Hnone x Hx)),
              (compareVersions_uncoerced y x (Hnot y Hy) (Hnot x Hx) (Hnone y Hy)).
      apply Hl_sign.
    + intros x y z Hx Hy Hz.
      rewrite (compareVersions_uncoerced x y (Hnot x Hx) (Hnot y Hy) (Hnone x Hx)),
              (compareVersions_uncoerced y z (Hnot y Hy) (Hnot z Hz) (Hnone y Hy)),
              (compareVersions_uncoerced x z (Hnot x Hx) (Hnot z Hz) (Hnone x Hx)).
      apply Hl_trans.
Qed.

End CompareMore.

Lemma compareVersions_range_witness :
  let c := @compareVersions Model.semver Model.builtins
             {| arg_name := "1.2.3"; arg_tags := None |}
             {| arg_name := "nightly"; arg_tags := Some ["dev"] |} in
  c = -1 \/ c = 0 \/ c = 1.
Proof.
  apply (@compareVersions_range Model.semver Model.builtins
           model_compare_range collate_range).
Defined.

Lemma compareVersions_self_witness :
  @compareVersions Model.semver Model.builtins
    {| arg_name := "1.2.3"; arg_tags := Some ["stable"] |}
    {| arg_name := "1.2.3"; arg_tags := Some ["stable"] |} = 0.
Proof.
  apply (@compareVersions_self Model.semver Model.builtins
           model_compare_refl collate_refl).
  intros (ts & [= <-] & Hin). simpl in Hin. intuition discriminate.
Defined.

Lemma compareVersions_consistent_witness :
  consistent
    (fun a b : ProjectDetails => @compareVersions Model.semver Model.builtins a b)
    [ {| name := "v1.2.3"; tags := []; hidden := false |};
      {| name := "1.10"; tags := ["stable"]; hidden := false |};
      {| name := "release-0.9.1"; tags := []; hidden := true |} ].
Proof.
  apply (@compareVersions_consistent Model.semver Model.builtins
           model_compare_sign model_compare_trans collate_sign collate_trans).
  - repeat constructor; simpl; intuition discriminate.
  - left. repeat (constructor; [eexists; reflexivity |]). constructor.
Defined.

(** ** More on getLatestVersion *)

Lemma find_exists {A : Type} (f : A -> bool) (l : list A) :
  Exists (fun x => f x = true) l -> exists x, find f l = Some x.
Proof.
  induction 1 as [x l Hx | x l _ IH]; simpl.
  - rewrite Hx. now exists x.
  - destruct (f x); [now exists x | exact IH].
Qed.

Lemma last_or_nil {A : Type} (l : list A) :
  l = [] \/ exists init r, l = (init ++ [r])%list.
Proof.
  destruct l as [| x l]; [now left | right].
  destruct (exists_last (l := x :: l)) as (init & r & Heq); [discriminate |].
  now exists init, r.
Qed.

Section LatestMore.
Context `{SemverLib} `{JsBuiltins}.

Lemma greatest_of_consistent (versions : list ProjectDetails) :
  sort_contract -> versions <> [] ->
  Forall (fun u => Js.includes (name u) "latest" = false) versions ->
  Forall (fun u => ~ In "latest" (tags u)) versions ->
  consistent (fun a b : ProjectDetails => compareVersions a b) versions ->
  exists r,
    fst (getLatestVersion versions) = Js.Return (Some r) /\
    In r versions /\
    forall v, In v versions -> compareVersions v r <= 0.
Proof.
  intros Hsort Hne Hnames Htags Hcons.
  destruct (getLatestVersion_sorted_last versions Hsort Hne Hnames Htags)
    as (init & r & Heq & Hres).
  destruct (Hsort _ (fun a b : ProjectDetails => compareVersions a b) versions)
    as [Hperm Hsorted].
  specialize (Hsorted Hcons). rewrite Heq in Hperm, Hsorted.
  assert (Hr : In r versions).
  { apply (Permutation_in _ (Permutation_sym Hperm)), in_or_app. simpl. auto. }
  exists r. rewrite Hres. split; [reflexivity |]. split; [exact Hr |].
  intros v Hv. apply (Permutation_in _ Hperm) in Hv.
  apply in_app_or in Hv as [Hv | [<- | []]].
  - apply (sorted_last_greatest _ init r Hsorted v Hv).
  - rewrite (consistent_refl _ _ _ Hcons Hr). lia.
Qed.

(** X5: on a non-empty sequence where no name contains ["latest"], no
    version is tagged ["latest"], and the names either all coerce to a
    semantic version or all fail to, the result is a greatest element of the
    sequence under [compareVersions]. *)
Theorem getLatestVersion_greatest
    (Hs_sign : forall x y, semver_compare x y < 0 <-> 0 < semver_compare y x)
    (Hs_trans : forall x y z, semver_compare x y <= 0 -> semver_compare y z <= 0 ->
                              semver_compare x z <= 0)
    (Hl_sign : forall s t, localeCompare s t < 0 <-> 0 < localeCompare t s)
    (Hl_trans : forall s t u, localeCompare s t <= 0 -> localeCompare t u <= 0 ->
                              localeCompare s u <= 0)
    (versions : list ProjectDetails) :
  sort_contract -> versions <> [] ->
  Forall (fun u => Js.includes (name u) "latest" = false) versions ->
  Forall (fun u => ~ In "latest" (tags u)) versions ->
  Forall (fun v => is_Some (semver_coerce (name v))) versions \/
  Forall (fun v => semver_coerce (name v) = None) versions ->
  exists r,
    fst (getLatestVersion versions) = Js.Return (Some r) /\
    In r versions /\
    forall v, In v versions -> compareVersions v r <= 0.
Proof.
  intros Hsort Hne Hnames Htags Hhom.
  apply greatest_of_consistent; try assumption.
  now apply homogeneous_consistent.
Qed.

(** X6: the call never raises. On a non-empty sequence it returns one of the
    elements of the sequence, it returns [undefined] only on the empty
    sequence, and the array it leaves behind is a permutation of the one it
    was given. *)
Theorem getLatestVersion_member (versions : list ProjectDetails) :
  sort_contract ->
  (exists result, fst (getLatestVersion versions) = Js.Return result /\
                  (forall r, result = Some r -> In r versions) /\
                  (result = None <-> versions = [])) /\
  Permutation versions (snd (getLatestVersion versions)).
Proof.
  intros Hsort. unfold getLatestVersion.
  destruct (find (fun v => Js.includes (name v) "latest") versions)
    as [latest |] eqn:Ename.
  { apply find_some in Ename as [Hin _]. split; [| reflexivity].
    exists (Some latest). split; [reflexivity |]. split.
    - now intros r [= <-].
    - split; [discriminate | intros ->; destruct Hin]. }
  destruct (find (fun v => Js.array_includes (tags v) "latest") versions)
    as [latestTag |] eqn:Etag.
  { apply find_some in Etag as [Hin _]. split; [| reflexivity].
    exists (Some latestTag). split; [reflexivity |]. split.
    - now intros r [= <-].
    - split; [discriminate | intros ->; destruct Hin]. }
  cbv zeta.
  destruct (Hsort _ (fun a b : ProjectDetails => compareVersions a b) versions)
    as [Hperm _].
  split; [| exact Hperm].
  destruct (last_or_nil
              (array_sort (fun a b : ProjectDetails => compareVersions a b)
                 versions)) as [Hnil | (init & r & Heq)].
  - rewrite Hnil in *. apply Permutation_sym, Permutation_nil in Hperm.
    exists None. split; [reflexivity |]. split; [discriminate |].
    split; [intros _; exact Hperm | reflexivity].
  - rewrite Heq in *. rewrite index_last.
    exists (Some r). split; [reflexivity |]. split.
    + intros r' [= <-].
      apply (Permutation_in _ (Permutation_sym Hperm)), in_or_app. simpl. auto.
    + split; [discriminate |]. intros ->.
      apply Permutation_nil in Hperm. now destruct init.
Qed.

(** X7: when a name contains ["latest"] or a version is tagged ["latest"],
    the array is left as it was: only the third rule reorders it. *)
Theorem getLatestVersion_frame (versions : list ProjectDetails) :
  Exists (fun v => Js.includes (name v) "latest" = true) versions \/
  Exists (fun v => In "latest" (tags v)) versions ->
  snd (getLatestVersion versions) = versions.
Proof.
  intros [Hname | Htag]; unfold getLatestVersion.
  - destruct (find_exists _ _ Hname) as [x ->]. reflexivity.
  - destruct (find _ versions); [reflexivity |].
    assert (Htag' : Exists (fun v => Js.array_includes (tags v) "latest" = true)
                      versions).
    { revert Htag. apply List.Exists_impl. intros v. apply array_includes_In. }
    destruct (find_exists _ _ Htag') as [x ->]. reflexivity.
Qed.

End LatestMore.

Section Precedence.
Context `{SemverLib} `{JsBuiltins}.


End Precedence.


Lemma getLatestVersion_greatest_witness :
  let l := [ {| name := "v1.2.3"; tags := []; hidden := false |};
             {| name := "1.10"; tags := ["stable"]; hidden := false |};
             {| name := "release-0.9.1"; tags := []; hidden := true |} ] in
  exists r,
    fst (@getLatestVersion Model.semver Model.builtins l) = Js.Return (Some r) /\
    In r l /\
    forall v, In v l -> @compareVersions Model.semver Model.builtins v r <= 0.
Proof.
  intros l.
  apply (@getLatestVersion_greatest Model.semver Model.builtins
           model_compare_sign model_compare_trans collate_sign collate_trans).
  - exact model_sort_contract.
  - discriminate.
  - repeat constructor.
  - repeat constructor; simpl; intuition discriminate.
  - left. repeat (constructor; [eexists; reflexivity |]). constructor.
Defined.

Lemma getLatestVersion_member_witness :
  let l := [ {| name := "dev"; tags := []; hidden := false |};
             {| name := "2.0.0"; tags := []; hidden := false |} ] in
  (exists result,
     fst (@getLatestVersion Model.semver Model.builtins l) = Js.Return result /\
     (forall r, result = Some r -> In r l) /\
     (result = None <-> l = [])) /\
  Permutation l (snd (@getLatestVersion Model.semver Model.builtins l)).
Proof.
  intros l.
  apply (@getLatestVersion_member Model.semver Model.builtins l
           model_sort_contract).
Defined.

Lemma getLatestVersion_frame_witness :
  let l := [ {| name := "2.0.0"; tags := []; hidden := false |};
             {| name := "1.0.0"; tags := ["latest"]; hidden := false |} ] in
  snd (@getLatestVersion Model.semver Model.builtins l) = l.
Proof.
  intros l. apply (@getLatestVersion_frame Model.semver Model.builtins l).
  right. apply Exists_cons_tl, Exists_cons_hd. simpl. auto.
Defined.

(** ** More on search *)

Lemma append_cons (x : ascii) (a b : string) :
  (String x a ++ b = String x (a ++ b))%string.
Proof. reflexivity. Qed.

Lemma append_assoc (a b c : string) : ((a ++ b) ++ c = a ++ (b ++ c))%string.
Proof.
  induction a as [| x a IH]; [reflexivity |].
  now rewrite !append_cons, IH.
Qed.

Lemma prefix_iff (a s : string) :
  String.prefix a s = true <-> exists post, s = (a ++ post)%string.
Proof.
  revert s. induction a as [| x a IH]; intros s.
  - destruct s; simpl; split; eauto.
  - destruct s as [| y s]; simpl.
    + split; [discriminate | intros (post & [=])].
    + destruct (ascii_dec x y) as [<- | Hne].
      * rewrite IH. split.
        -- intros (post & ->). now exists post.
        -- intros (post & [= ->]). now exists post.
      * split; [discriminate | intros (post & [= Hxy _]); congruence].
Qed.

(** [includes] is occurrence as a contiguous substring. *)
Lemma includes_iff (s sub : string) :
  Js.includes s sub = true <->
  exists pre post, s = (pre ++ sub ++ post)%string.
Proof.
  induction s as [| c s IH].
  - change (Js.includes "" sub) with (String.prefix sub "" || false).
    rewrite orb_false_r, prefix_iff. split.
    + intros (post & Heq). now exists "", post.
    + intros ([| x pre] & post & Heq); [now exists post | discriminate].
  - change (Js.includes (String c s) sub)
      with (String.prefix sub (String c s) || Js.includes s sub).
    rewrite orb_true_iff, prefix_iff, IH. split.
    + intros [(post & Heq) | (pre & post & ->)].
      * now exists "", post.
      * now exists (String c pre), post.
    + intros ([| x pre] & post & Heq).
      * left. now exists post.
      * right. rewrite append_cons in Heq. injection Heq as _ ->.
        now exists pre, post.
Qed.

Lemma includes_trans (s m q : string) :
  Js.includes s m = true -> Js.includes m q = true -> Js.includes s q = true.
Proof.
  rewrite !includes_iff. intros (pre & post & ->) (pre' & post' & ->).
  exists (pre ++ pre')%string, (post' ++ post)%string.
  now rewrite !append_assoc.
Qed.

Lemma SearchResult_eq (r1 r2 : SearchResult) :
  sr_projects r1 = sr_projects r2 -> sr_versions r1 = sr_versions r2 -> r1 = r2.
Proof. destruct r1, r2; simpl. now intros -> ->. Qed.

Lemma filter_visible_idem (vs : list ProjectDetails) :
  List.filter visible (List.filter visible vs) = List.filter visible vs.
Proof.
  induction vs as [| v vs IH]; simpl; [reflexivity |].
  destruct (visible v) eqn:E; simpl; [rewrite E, IH |]; auto.
Qed.

Lemma existsb_filter_visible (vs : list ProjectDetails) :
  existsb visible (List.filter visible vs) = existsb visible vs.
Proof.
  induction vs as [| v vs IH]; simpl; [reflexivity |].
  destruct (visible v) eqn:E; simpl; [rewrite E |]; auto.
Qed.

Lemma has_versions_without_hidden (p : Project) :
  has_versions (without_hidden p) = existsb visible (versions p).
Proof.
  unfold has_versions, without_hidden. simpl.
  induction (versions p) as [| v vs IH]; simpl; [reflexivity |].
  destruct (visible v); simpl; auto.
Qed.

Lemma no_visible_filter (vs : list ProjectDetails) :
  existsb visible vs = false -> List.filter visible vs = [].
Proof.
  induction vs as [| v vs IH]; simpl; [reflexivity |].
  destruct (visible v); simpl; [discriminate | exact IH].
Qed.

(** The contents that [filterHiddenVersions] leaves: a fixed point of the
    filtering. *)
Lemma kept_idempotent (ps : list Project) :
  List.filter has_versions
    (map without_hidden (List.filter has_versions (map without_hidden ps)))
  = List.filter has_versions (map without_hidden ps).
Proof.
  induction ps as [| p ps IH]; simpl; [reflexivity |].
  destruct (has_versions (without_hidden p)) eqn:E; simpl; [| exact IH].
  assert (Hidem : without_hidden (without_hidden p) = without_hidden p).
  { unfold without_hidden. simpl. now rewrite filter_visible_idem. }
  now rewrite Hidem, E, IH.
Qed.

Section SearchMore.
Context `{JsBuiltins}.

Lemma name_matches_In (ps : list Project) (query : string)
    (r : VersionSearchResult) :
  In r (name_matches ps query) <->
  exists p, In p ps /\
            In r (name_matches_of (project_name p) (versions p) query).
Proof.
  induction ps as [| p ps IH]; simpl.
  - split; [intros [] | intros (p & [] & _)].
  - rewrite in_app_iff, IH. split.
    + intros [Hr | (p' & Hp' & Hr)]; [exists p | exists p']; auto.
    + intros (p' & [<- | Hp'] & Hr); [now left | right; now exists p'].
Qed.

Lemma tag_matches_of_In (project : string) (vs : list ProjectDetails)
    (query : string) (r : VersionSearchResult) :
  In r (tag_matches_of project vs query) <->
  exists v, In v vs /\ hidden v = false /\
            In r (tag_entries project (tags v) query).
Proof.
  induction vs as [| v vs IH]; simpl.
  - split; [intros [] | intros (v & [] & _)].
  - unfold visible at 1. destruct (hidden v) eqn:Eh; simpl.
    + rewrite IH. split.
      * intros (u & Hu & Hr). exists u. auto.
      * intros (u & [<- | Hu] & Hh & Hr); [congruence | exists u; auto].
    + rewrite in_app_iff, IH. split.
      * intros [Hr | (u & Hu & Hr)]; [exists v | exists u]; auto.
      * intros (u & [<- | Hu] & Hh & Hr); [now left | right; exists u; auto].
Qed.

Lemma tag_matches_In (ps : list Project) (query : string)
    (r : VersionSearchResult) :
  In r (tag_matches ps query) <->
  exists p, In p ps /\
            In r (tag_matches_of (project_name p) (versions p) query).
Proof.
  induction ps as [| p ps IH]; simpl.
  - split; [intros [] | intros (p & [] & _)].
  - rewrite in_app_iff, IH. split.
    + intros [Hr | (p' & Hp' & Hr)]; [exists p | exists p']; auto.
    + intros (p' & [<- | Hp'] & Hr); [now left | right; now exists p'].
Qed.

(** Searching what is left after the hidden versions and the emptied
    projects are taken out gives what searching the whole gives. *)
Lemma search_kept (ps : list Project) (query : string) :
  search (List.filter has_versions (map without_hidden ps)) query
  = search ps query.
Proof.
  apply SearchResult_eq.
  - rewrite !projects_field_eq.
    induction ps as [| p ps IH]; simpl; [reflexivity |].
    rewrite has_versions_without_hidden.
    destruct (existsb visible (versions p)) eqn:E; simpl.
    + rewrite existsb_filter_visible, E, !andb_true_r.
      destruct (contains_query (project_name p) (trim (toLowerCase query)));
        simpl; now rewrite IH.
    + now rewrite andb_false_r.
  - rewrite !versions_field_eq. f_equal.
    + induction ps as [| p ps IH]; simpl; [reflexivity |].
      rewrite has_versions_without_hidden, <- (name_matches_of_visible _ (versions p)).
      destruct (existsb visible (versions p)) eqn:E; simpl.
      * now rewrite IH.
      * now rewrite (no_visible_filter _ E), IH.
    + induction ps as [| p ps IH]; simpl; [reflexivity |].
      rewrite has_versions_without_hidden, <- (tag_matches_of_visible _ (versions p)).
      destruct (existsb visible (versions p)) eqn:E; simpl.
      * now rewrite IH.
      * now rewrite (no_visible_filter _ E), IH.
Qed.

(** X8: every entry of the [versions] field comes from a version that is not
    hidden of a project of the input: its project field is that project's
    name and its version field is that version's name or one of its tags. *)
Theorem search_versions_provenance (ps : list Project) (query : string)
    (r : VersionSearchResult) :
  In r (sr_versions (search ps query)) ->
  exists p v,
    In p ps /\ In v (versions p) /\ hidden v = false /\
    vsr_project r = project_name p /\
    (vsr_version r = name v \/ In (vsr_version r) (tags v)).
Proof.
  rewrite versions_field_eq, in_app_iff.
  intros [Hr | Hr].
  - apply name_matches_In in Hr as (p & Hp & Hr).
    apply name_matches_of_In in Hr as (v & Hv & Hh & _ & ->).
    exists p, v. simpl. repeat split; auto.
  - apply tag_matches_In in Hr as (p & Hp & Hr).
    apply tag_matches_of_In in Hr as (v & Hv & Hh & Hr).
    apply tag_entries_In in Hr as (t & Ht & _ & ->).
    exists p, v. simpl. repeat split; auto.
Qed.

(** X9: a longer query narrows the result: when the normalised query [q2]
    contains the normalised query [q1], every entry found for [q2] is found
    for [q1]. *)
Theorem search_narrowing (ps : list Project) (q1 q2 : string) :
  Js.includes (trim (toLowerCase q2)) (trim (toLowerCase q1)) = true ->
  incl (sr_projects (search ps q2)) (sr_projects (search ps q1)) /\
  incl (sr_versions (search ps q2)) (sr_versions (search ps q1)).
Proof.
  intros Hq.
  assert (Hweak : forall text,
            contains_query text (trim (toLowerCase q2)) = true ->
            contains_query text (trim (toLowerCase q1)) = true).
  { intros text Ht. exact (includes_trans _ _ _ Ht Hq). }
  split.
  - rewrite !projects_field_eq. intros r Hr.
    apply in_map_iff in Hr as (p & <- & Hp).
    apply filter_In in Hp as [Hp Hc]. apply andb_true_iff in Hc as [Hc Hv].
    apply in_map_iff. exists p. split; [reflexivity |].
    apply filter_In. split; [exact Hp |].
    now rewrite (Hweak _ Hc), Hv.
  - rewrite !versions_field_eq. intros r Hr.
    apply in_app_iff in Hr as [Hr | Hr]; apply in_app_iff; [left | right].
    + apply name_matches_In in Hr as (p & Hp & Hr).
      apply name_matches_of_In in Hr as (v & Hv & Hh & Hc & ->).
      apply name_matches_In. exists p. split; [exact Hp |].
      apply name_matches_of_In. exists v. auto.
    + apply tag_matches_In in Hr as (p & Hp & Hr).
      apply tag_matches_of_In in Hr as (v & Hv & Hh & Hr).
      apply tag_entries_In in Hr as (t & Ht & Hc & ->).
      apply tag_matches_In. exists p. split; [exact Hp |].
      apply tag_matches_of_In. exists v. split; [exact Hv |].
      split; [exact Hh |]. apply tag_entries_In. exists t. auto.
Qed.

End SearchMore.

Lemma search_versions_provenance_witness :
  let ps :=
    [ {| project_name := "Alpha";
         versions := [ {| name := "1.0.0"; tags := ["v1-beta"]; hidden := false |};
                       {| name := "0.1.0-beta"; tags := []; hidden := true |} ] |} ] in
  let r := {| vsr_project := "Alpha"; vsr_version := "v1-beta" |} in
  exists p v,
    In p ps /\ In v (versions p) /\ hidden v = false /\
    vsr_project r = project_name p /\
    (vsr_version r = name v \/ In (vsr_version r) (tags v)).
Proof.
  intros ps r.
  apply (@search_versions_provenance Model.builtins ps "Beta" r).
  left. reflexivity.
Defined.

Lemma search_narrowing_witness :
  let ps :=
    [ {| project_name := "Alpha";
         versions := [ {| name := "1.0.0"; tags := ["alpine"]; hidden := false |} ] |};
      {| project_name := "algol";
         versions := [ {| name := "60"; tags := []; hidden := false |} ] |} ] in
  incl (sr_projects (@search Model.builtins ps " alpha"))
       (sr_projects (@search Model.builtins ps "AL")) /\
  incl (sr_versions (@search Model.builtins ps " alpha"))
       (sr_versions (@search Model.builtins ps "AL")).
Proof.
  intros ps. apply (@search_narrowing Model.builtins ps "AL" " alpha").
  reflexivity.
Defined.

(** ** More on filterHiddenVersions *)

(** The call and the contents of its result. *)
Lemma filterHiddenVersions_contents (h : heap) (allProjects : list loc)
    (ps : list Project) :
  holds h allProjects ps ->
  exists projects h',
    filterHiddenVersions allProjects h = Some (projects, h') /\
    holds h' projects (List.filter has_versions (map without_hidden ps)) /\
    Forall (fun l => h !! l = None) projects.
Proof.
  intros Hh.
  destruct (JSON_parse_stringify_spec allProjects h ps Hh)
    as (copies & h1 & Hcopy & Hsub & Hcopies & Hnew & Hnodup).
  destruct (forEach_strip_spec copies h1 ps Hcopies Hnodup)
    as (h2 & Hloop & Hstripped & Hframe).
  destruct (filterM_nonempty_spec copies h2 _ Hstripped)
    as (res & Hfilter & Hres & Hincl).
  exists res, h2. split; [| split].
  - unfold filterHiddenVersions.
    rewrite (bind_run _ _ _ _ _ Hcopy), (bind_run _ _ _ _ _ Hloop).
    exact Hfilter.
  - exact Hres.
  - apply List.Forall_forall. intros l Hl.
    rewrite List.Forall_forall in Hnew. apply Hnew, Hincl, Hl.
Qed.

(** X10: searching the projects that [filterHiddenVersions] returns gives
    the result of searching the projects it was given, for every query. *)
Theorem search_after_filterHiddenVersions `{JsBuiltins} (h : heap)
    (allProjects : list loc) (ps : list Project) :
  holds h allProjects ps ->
  exists projects h' qs,
    filterHiddenVersions allProjects h = Some (projects, h') /\
    holds h' projects qs /\
    forall query, search qs query = search ps query.
Proof.
  intros Hh.
  destruct (filterHiddenVersions_contents h allProjects ps Hh)
    as (projects & h' & Hrun & Hres & _).
  exists projects, h', (List.filter has_versions (map without_hidden ps)).
  split; [exact Hrun |]. split; [exact Hres |].
  intros query. apply search_kept.
Qed.

(** X11: the call is idempotent on contents: applied to its own result it
    returns a collection with the same projects and versions. *)
Theorem filterHiddenVersions_idempotent (h : heap) (allProjects : list loc)
    (ps : list Project) :
  holds h allProjects ps ->
  exists projects h' qs,
    filterHiddenVersions allProjects h = Some (projects, h') /\
    holds h' projects qs /\
    exists projects2 h'',
      filterHiddenVersions projects h' = Some (projects2, h'') /\
      holds h'' projects2 qs.
Proof.
  intros Hh.
  destruct (filterHiddenVersions_contents h allProjects ps Hh)
    as (projects & h' & Hrun & Hres & _).
  destruct (filterHiddenVersions_contents h' projects _ Hres)
    as (projects2 & h'' & Hrun2 & Hres2 & _).
  rewrite kept_idempotent in Hres2.
  exists projects, h', (List.filter has_versions (map without_hidden ps)).
  split; [exact Hrun |]. split; [exact Hres |].
  exists projects2, h''. split; [exact Hrun2 | exact Hres2].
Qed.

Lemma nothing_to_remove (ps : list Project) :
  Forall (fun p => versions p <> [] /\
                   Forall (fun v => hidden v = false) (versions p)) ps ->
  List.filter has_versions (map without_hidden ps) = ps.
Proof.
  induction 1 as [| p ps [Hne Hvis] _ IH]; simpl; [reflexivity |].
  assert (Hsame : without_hidden p = p).
  { destruct p as [pname vs]. unfold without_hidden. simpl in *. f_equal.
    clear Hne. induction Hvis as [| v vs Hv _ IHv]; simpl; [reflexivity |].
    unfold visible at 1. now rewrite Hv, IHv. }
  rewrite Hsame, IH. unfold has_versions.
  destruct (versions p); [contradiction | reflexivity].
Qed.

(** X12: when no version is hidden and every project has a version, the
    result is a copy: new objects, at addresses not in use before, with the
    contents of the input projects in the same order. *)
Theorem filterHiddenVersions_copy (h : heap) (allProjects : list loc)
    (ps : list Project) :
  holds h allProjects ps ->
  Forall (fun p => versions p <> [] /\
                   Forall (fun v => hidden v = false) (versions p)) ps ->
  exists projects h',
    filterHiddenVersions allProjects h = Some (projects, h') /\
    holds h' projects ps /\
    Forall (fun l => h !! l = None) projects.
Proof.
  intros Hh Hall.
  destruct (filterHiddenVersions_contents h allProjects ps Hh)
    as (projects & h' & Hrun & Hres & Hnew).
  rewrite (nothing_to_remove ps Hall) in Hres.
  now exists projects, h'.
Qed.

Lemma search_after_filterHiddenVersions_witness :
  let alpha :=
    {| project_name := "Alpha";
       versions := [ {| name := "1.0.0"; tags := ["stable"]; hidden := false |};
                     {| name := "0.9.0"; tags := []; hidden := true |} ] |} in
  let beta :=
    {| project_name := "beta";
       versions := [ {| name := "2.0.0"; tags := []; hidden := true |} ] |} in
  let h : heap := <[1%positive := alpha]> (<[2%positive := beta]> ∅) in
  exists projects h' qs,
    filterHiddenVersions [1%positive; 2%positive] h = Some (projects, h') /\
    holds h' projects qs /\
    forall query,
      @search Model.builtins qs query = @search Model.builtins [alpha; beta] query.
Proof.
  intros alpha beta h.
  apply (@search_after_filterHiddenVersions Model.builtins h).
  repeat constructor.
Defined.

Lemma filterHiddenVersions_idempotent_witness :
  let alpha :=
    {| project_name := "Alpha";
       versions := [ {| name := "1.0.0"; tags := ["stable"]; hidden := false |};
                     {| name := "0.9.0"; tags := []; hidden := true |} ] |} in
  let beta :=
    {| project_name := "beta";
       versions := [ {| name := "2.0.0"; tags := []; hidden := true |} ] |} in
  let h : heap := <[1%positive := alpha]> (<[2%positive := beta]> ∅) in
  exists projects h' qs,
    filterHiddenVersions [1%positive; 2%positive] h = Some (projects, h') /\
    holds h' projects qs /\
    exists projects2 h'',
      filterHiddenVersions projects h' = Some (projects2, h'') /\
      holds h'' projects2 qs.
Proof.
  intros alpha beta h.
  apply (filterHiddenVersions_idempotent h [1%positive; 2%positive] [alpha; beta]).
  repeat constructor.
Defined.

Lemma filterHiddenVersions_copy_witness :
  let alpha :=
    {| project_name := "Alpha";
       versions := [ {| name := "1.0.0"; tags := ["stable"]; hidden := false |} ] |} in
  let h : heap := <[7%positive := alpha]> ∅ in
  exists projects h',
    filterHiddenVersions [7%positive; 7%positive] h = Some (projects, h') /\
    holds h' projects [alpha; alpha] /\
    Forall (fun l => h !! l = None) projects.
Proof.
  intros alpha h.
  apply (filterHiddenVersions_copy h [7%positive; 7%positive] [alpha; alpha]).
  - repeat constructor.
  - repeat constructor; discriminate.
Defined.

(** ** More on the favourite flags *)

(** X13: [setFavorite] changes the flag of its project and of no other:
    afterwards [isFavorite] of that project is the value that was set, and
    every other key of the store holds what it held. *)
Theorem setFavorite_isFavorite (localStorage : Storage) (p : string) (b : bool) :
  isFavorite (setFavorite localStorage p b) p = b /\
  (forall q, q <> p ->
     getItem (setFavorite localStorage p b) q = getItem localStorage q /\
     isFavorite (setFavorite localStorage p b) q = isFavorite localStorage q).
Proof.
  unfold isFavorite, setFavorite, getItem, setItem, removeItem. split.
  - destruct b.
    + rewrite lookup_insert_eq. reflexivity.
    + rewrite lookup_delete_eq. reflexivity.
  - intros q Hq. destruct b.
    + rewrite lookup_insert_ne by congruence. auto.
    + rewrite lookup_delete_ne by congruence. auto.
Qed.

(** X14: the last call for a project decides, whatever was set before; in
    particular setting the same value twice is setting it once. *)
Theorem setFavorite_last_wins (localStorage : Storage) (p : string)
    (b1 b2 : bool) :
  setFavorite (setFavorite localStorage p b1) p b2 = setFavorite localStorage p b2.
Proof.
  unfold setFavorite, setItem, removeItem. destruct b1, b2.
  - apply insert_insert_eq.
  - apply delete_insert_eq.
  - apply insert_delete_eq.
  - apply delete_delete_eq.
Qed.

(** X15: calls for two different projects commute. *)
Theorem setFavorite_commutes (localStorage : Storage) (p q : string)
    (b c : bool) :
  p <> q ->
  setFavorite (setFavorite localStorage p b) q c
  = setFavorite (setFavorite localStorage q c) p b.
Proof.
  intros Hpq. unfold setFavorite, setItem, removeItem. destruct b, c.
  - now apply insert_insert_ne.
  - apply delete_insert_ne. congruence.
  - symmetry. now apply delete_insert_ne.
  - apply delete_delete.
Qed.

Lemma setFavorite_commutes_witness :
  setFavorite (setFavorite ∅ "docat" true) "sphinx" false
  = setFavorite (setFavorite ∅ "sphinx" false) "docat" true.
Proof. apply setFavorite_commutes. discriminate. Defined.

(** X16: a call that changes no flag changes nothing in the store:
    unmarking a project that has no entry leaves the store as it was, and so
    does marking a project that is a favourite. *)
Theorem setFavorite_noop (localStorage : Storage) (p : string) :
  (getItem localStorage p = None -> setFavorite localStorage p false = localStorage) /\
  (isFavorite localStorage p = true -> setFavorite localStorage p true = localStorage).
Proof.
  unfold isFavorite, setFavorite, getItem, setItem, removeItem. split.
  - intros Hp. now apply delete_id.
  - intros Hp%bool_decide_eq_true. now apply insert_id.
Qed.

(** ** URLs *)

Lemma length_append (a b : string) :
  String.length (a ++ b) = (String.length a + String.length b)%nat.
Proof.
  induction a as [| x a IH]; [reflexivity |].
  rewrite append_cons. simpl. now rewrite IH.
Qed.

Lemma append_inj_l (a x y : string) : (a ++ x = a ++ y)%string -> x = y.
Proof.
  induction a as [| c a IH]; [trivial |].
  rewrite !append_cons. intros [= Heq]. now apply IH.
Qed.

Lemma append_inj_r (s x y : string) : (x ++ s = y ++ s)%string -> x = y.
Proof.
  revert y. induction x as [| c x IH]; intros [| d y] Heq.
  - reflexivity.
  - apply (f_equal String.length) in Heq.
    rewrite !length_append in Heq. simpl in Heq. lia.
  - apply (f_equal String.length) in Heq.
    rewrite !length_append in Heq. simpl in Heq. lia.
  - rewrite !append_cons in Heq. injection Heq as -> Heq.
    now rewrite (IH y Heq).
Qed.

(** Two strings cut at their first ["/"]. *)
Lemma split_at_slash (a b r r' : string) :
  no_slash a -> no_slash b ->
  (a ++ "/" ++ r = b ++ "/" ++ r')%string -> a = b /\ r = r'.
Proof.
  revert b. induction a as [| x a IH]; intros [| y b] Ha Hb Heq.
  - change (String "/" r = String "/" r') in Heq. now injection Heq as ->.
  - change (String "/" r = String y (b ++ "/" ++ r')) in Heq.
    injection Heq as Hy _. destruct Hb as [Hb _]. congruence.
  - change (String x (a ++ "/" ++ r) = String "/" r') in Heq.
    injection Heq as Hx _. destruct Ha as [Ha _]. congruence.
  - change (String x (a ++ "/" ++ r) = String y (b ++ "/" ++ r')) in Heq.
    injection Heq as -> Heq.
    destruct Ha as [_ Ha], Hb as [_ Hb].
    destruct (IH b Ha Hb Heq) as [-> ->]. auto.
Qed.

Lemma slash_inside (a b : string) : ~ no_slash (a ++ "/" ++ b).
Proof.
  induction a as [| x a IH].
  - change (~ no_slash (String "/" b)). intros [Hne _]. now apply Hne.
  - rewrite append_cons. intros [_ Hrest]. now apply IH.
Qed.

(** X17: the URL of a page is the URL of the version's root followed by the
    path of the page; leaving the path out or passing the empty path gives
    that root. *)
Theorem getProjectDocsURL_path (projectName version : string) :
  getProjectDocsURL projectName version None
  = getProjectDocsURL projectName version (Some "") /\
  forall docsPath,
    getProjectDocsURL projectName version (Some docsPath)
    = (getProjectDocsURL projectName version None ++ docsPath)%string.
Proof.
  unfold getProjectDocsURL. simpl. split; [reflexivity |].
  intros docsPath. rewrite !append_assoc. reflexivity.
Qed.

(** X18: different projects have different logo URLs. *)
Theorem getProjectLogoURL_injective (p q : string) :
  getProjectLogoURL p = getProjectLogoURL q <-> p = q.
Proof.
  split; [| now intros ->].
  unfold getProjectLogoURL. intros Heq.
  do 3 apply append_inj_l in Heq.
  exact (append_inj_r _ _ _ Heq).
Qed.

(** X19: for project and version names without ["/"], the documentation URL
    determines the project, the version and the path. *)
Theorem getProjectDocsURL_injective (p v p' v' : string) (d d' : option string) :
  no_slash p -> no_slash v -> no_slash p' -> no_slash v' ->
  (getProjectDocsURL p v d = getProjectDocsURL p' v' d' <->
   p = p' /\ v = v' /\ default "" d = default "" d').
Proof.
  intros Hp Hv Hp' Hv'. split.
  - unfold getProjectDocsURL. intros Heq.
    do 3 apply append_inj_l in Heq.
    apply split_at_slash in Heq as [-> Heq]; try assumption.
    apply split_at_slash in Heq as [-> Heq]; try assumption.
    auto.
  - unfold getProjectDocsURL. now intros (-> & -> & ->).
Qed.

Lemma getProjectDocsURL_injective_witness :
  getProjectDocsURL "docat" "1.0.0" None
  = getProjectDocsURL "docat" "1.0.0" (Some "") <->
  "docat" = "docat" /\ "1.0.0" = "1.0.0" /\ default "" None = default "" (Some "").
Proof.
  apply getProjectDocsURL_injective; simpl; intuition discriminate.
Defined.

(** X20: for a project name without ["/"], no documentation URL is the logo
    URL of a project. *)
Theorem docs_url_is_no_logo_url (p v p' : string) (d : option string) :
  no_slash p -> no_slash p' ->
  String.eqb (getProjectDocsURL p v d) (getProjectLogoURL p') = false.
Proof.
  intros Hp Hp'. apply String.eqb_neq.
  unfold getProjectDocsURL, getProjectLogoURL. intros Heq.
  do 3 apply append_inj_l in Heq.
  change ("/logo") with ("/" ++ "logo")%string in Heq.
  apply split_at_slash in Heq as [_ Heq]; try assumption.
  apply (slash_inside v (default "" d)). rewrite Heq. simpl.
  repeat split; discriminate.
Qed.

Lemma docs_url_is_no_logo_url_witness :
  String.eqb (getProjectDocsURL "docat" "logo" None) (getProjectLogoURL "docat")
  = false.
Proof. apply docs_url_is_no_logo_url; simpl; intuition discriminate. Defined.

(** ** Requests to the server *)

Lemma prefix_append (a b : string) : String.prefix a (a ++ b) = true.
Proof. apply prefix_iff. now exists b. Qed.

Ltac prefixed :=
  eexists; split; [reflexivity | first [reflexivity | apply prefix_append]].

Section ServerProperties.
Context {FormData : Type}.




End ServerProperties.

Section VersionsOfServer.
Context {FormData : Type} `{SemverLib} `{JsBuiltins}.

Lemma latest_of_nothing :
  sort_contract -> getLatestVersion [] = (Js.Return None, []).
Proof.
  intros Hsort.
  destruct (Hsort _ (fun a b : ProjectDetails => compareVersions a b) [])
    as [Hperm _].
  apply Permutation_nil in Hperm.
  unfold getLatestVersion. simpl. rewrite Hperm. reflexivity.
Qed.


End VersionsOfServer.


(** ** The array after the third rule *)

(** X25: when no name contains ["latest"], no version is tagged ["latest"]
    and [compareVersions] orders the elements consistently, the call leaves
    the caller's array holding the same versions in ascending order of
    [compareVersions]. *)
Theorem getLatestVersion_sorts_array `{SemverLib} `{JsBuiltins}
    (versions : list ProjectDetails) :
  sort_contract ->
  Forall (fun u => Js.includes (name u) "latest" = false) versions ->
  Forall (fun u => ~ In "latest" (tags u)) versions ->
  consistent (fun a b : ProjectDetails => compareVersions a b) versions ->
  Permutation versions (snd (getLatestVersion versions)) /\
  StronglySorted (fun a b : ProjectDetails => compareVersions a b <= 0)
    (snd (getLatestVersion versions)).
Proof.
  intros Hsort Hnames Htags Hcons. unfold getLatestVersion.
  rewrite (find_nothing _ _ Hnames), (tag_find_nothing _ Htags). cbv zeta.
  destruct (Hsort _ (fun a b : ProjectDetails => compareVersions a b) versions)
    as [Hperm Hsorted].
  split; [exact Hperm | exact (Hsorted Hcons)].
Qed.

Lemma getLatestVersion_sorts_array_witness :
  let l := [ {| name := "2.0.0"; tags := []; hidden := false |};
             {| name := "1.0.0"; tags := []; hidden := false |} ] in
  Permutation l (snd (@getLatestVersion Model.semver Model.builtins l)) /\
  StronglySorted
    (fun a b : ProjectDetails =>
       @compareVersions Model.semver Model.builtins a b <= 0)
    (snd (@getLatestVersion Model.semver Model.builtins l)).
Proof.
  intros l.
  apply (@getLatestVersion_sorts_array Model.semver Model.builtins l
           model_sort_contract).
  - repeat constructor.
  - repeat constructor; simpl; intuition discriminate.
  - apply (@homogeneous_consistent Model.semver Model.builtins
             model_compare_sign model_compare_trans collate_sign collate_trans).
    + repeat constructor; simpl; intuition discriminate.
    + left. repeat (constructor; [eexists; reflexivity |]). constructor.
Defined.
